(** * AST helpers of eslint-plugin-xss ([lib/tree.js])

    A shallow embedding of the six helpers exported by [lib/tree.js]
    ([getIdentifier], [getNodeName], [getFullItemName], [getPartialItemName],
    [getParentFunctionIdentifier], [isParameter]) over an explicit store of
    JavaScript objects, followed by the properties established about them.

    The helpers inspect ESTree nodes: plain objects carrying a [type] tag,
    kind-specific fields and a [parent] back-reference.  Nodes are compared
    with [===], so object identity matters; the tree is therefore kept in a
    store indexed by locations, and a node is a reference into it. *)

From stdpp Require Import base option list strings gmap.

Open Scope string_scope.
Open Scope list_scope.

(** ** JavaScript values and the object store *)

(** The values an AST field read by this module can hold.  Numbers do not
    occur in any field the module reads and are left out. *)
Inductive value :=
  | VUndef
  | VNull
  | VBool (b : bool)
  | VStr (s : string)
  | VRef (l : nat).

(** A stored object is a plain object (own data properties keyed by name) or
    an array.  The parser's objects carry no accessors and no methods. *)
Inductive obj :=
  | OObj (fields : gmap string value)
  | OArr (elems : list value).

Abbreviation heap := (gmap nat obj).

#[global] Instance value_eq_dec : EqDecision value.
Proof. solve_decision. Defined.

#[global] Instance value_inhabited : Inhabited value := populate VUndef.

(** ** Outcomes

    [TypeError] is the exception JavaScript raises on a property read of
    [undefined]/[null] or on a call of a non-function.  [OutOfFuel] marks a
    loop that did not finish within the given number of iterations.
    [Unmodelled] marks behaviour outside the fragment described here: a
    reference to a location the store does not hold (which JavaScript cannot
    produce) and the string conversion of an array. *)
Inductive error := TypeError | OutOfFuel | Unmodelled.

Inductive result (A : Type) :=
  | Ok (a : A)
  | Err (e : error).
Arguments Ok {A} a.
Arguments Err {A} e.

#[global] Instance result_ret : MRet result := @Ok.
#[global] Instance result_bind : MBind result := λ A B f m,
  match m with
  | Ok a => f a
  | Err e => Err e
  end.

(** Short-circuit conjunction of two conditions that may raise. *)
Definition and_then (c1 c2 : result bool) : result bool :=
  c1 ≫= λ b : bool, if b then c2 else Ok false.
Infix "&&&" := and_then (at level 40, left associativity).

(** ** Primitive operations *)

(** [a === b].  On the values above strict equality is equality of the
    primitive, and equality of the location for references. *)
Definition strict_eq (a b : value) : bool := bool_decide (a = b).
Definition strict_neq (a b : value) : bool := negb (strict_eq a b).

(** ToBoolean, as applied by [if], [!], [&&] and [?:]. *)
Definition to_boolean (v : value) : bool :=
  match v with
  | VUndef | VNull => false
  | VBool b => b
  | VStr s => negb (bool_decide (s = ""))
  | VRef _ => true
  end.

(** The property read [v.k], for the property names this module reads
    ([type], [callee], [computed], [object], [property], [name], [id],
    [parent], [left], [right], [init], [value], [arguments], [elements],
    [alternate], [consequent], [body]).  None of them is inherited from a
    prototype, so on a boolean, a string or an array the read gives
    [undefined], and on a plain object it gives the own property or
    [undefined]. *)
Definition get (h : heap) (v : value) (k : string) : result value :=
  match v with
  | VUndef | VNull => Err TypeError
  | VBool _ | VStr _ => Ok VUndef
  | VRef l =>
      match h !! l with
      | Some (OObj fields) => Ok (default VUndef (fields !! k))
      | Some (OArr _) => Ok VUndef
      | None => Err Unmodelled
      end
  end.

(** [arr.forEach(cb)], where the callback updates captured variables of type
    [S].  The arrays the parser builds are dense, so every element is
    visited, in order.  Only arrays have a [forEach]; on [undefined]/[null]
    the read of [forEach] raises, and on any other value the call of
    [undefined] raises. *)
Definition forEach {S : Type} (h : heap) (arr : value)
    (cb : value → S → S) (s : S) : result S :=
  match arr with
  | VRef l =>
      match h !! l with
      | Some (OArr elems) => Ok (fold_left (λ s a, cb a s) elems s)
      | Some (OObj _) => Err TypeError
      | None => Err Unmodelled
      end
  | _ => Err TypeError
  end.

(** ToString of a value. A plain object has no [toString] of its own and
    prints as [[object Object]]. *)
Definition to_string (h : heap) (v : value) : result string :=
  match v with
  | VUndef => Ok "undefined"
  | VNull => Ok "null"
  | VBool true => Ok "true"
  | VBool false => Ok "false"
  | VStr s => Ok s
  | VRef l =>
      match h !! l with
      | Some (OObj _) => Ok "[object Object]"
      | _ => Err Unmodelled
      end
  end.

(** [s + v] with a string on the left: concatenation with ToString of [v]. *)
Definition str_add (h : heap) (s : string) (v : value) : result string :=
  t ← to_string h v; Ok (s +:+ t).

(** One element of [Array.prototype.join]: [undefined] and [null] print as
    the empty string, everything else through ToString. *)
Definition join_elem (h : heap) (v : value) : result string :=
  match v with
  | VUndef | VNull => Ok ""
  | _ => to_string h v
  end.

(** [arr.join(sep)]: the separator goes before every element but the first. *)
Fixpoint join_from (h : heap) (sep : string) (acc : string) (l : list value)
    : result string :=
  match l with
  | [] => Ok acc
  | v :: l' => s ← join_elem h v; join_from h sep (acc +:+ sep +:+ s) l'
  end.

Definition join (h : heap) (sep : string) (l : list value) : result string :=
  match l with
  | [] => Ok ""
  | v :: l' => s ← join_elem h v; join_from h sep s l'
  end.

(** ** The module [tree] *)

Module tree.

(** [getIdentifier(node)] *)
Definition getIdentifier (h : heap) (node : value) : result value :=
  (* Function calls use the callee as name. *)
  ty ← get h node "type";
  node ← (if strict_eq ty (VStr "CallExpression")
          then get h node "callee" else Ok node);
  (* Get the member property. *)
  ty ← get h node "type";
  node ← (if strict_eq ty (VStr "MemberExpression")
          then
            computed ← get h node "computed";
            if to_boolean computed
            then get h node "object"
            else get h node "property"
          else Ok node);
  ty ← get h node "type";
  if strict_neq ty (VStr "Identifier")
  then Ok VNull
  else Ok node.

(** [getNodeName(node)] *)
Definition getNodeName (h : heap) (node : value) : result value :=
  (* Check the 'this' expression. *)
  ty ← get h node "type";
  if strict_eq ty (VStr "ThisExpression")
  then Ok (VStr "this")
  else
    (* Expect identifier or similar node. *)
    id ← getIdentifier h node;
    if to_boolean id then get h id "name" else Ok (VStr "").

(** The [while] loop of [getFullItemName]: the name stack of the member
    expressions, gathered in reverse.  [name ++ [x]] is [name.push(x)].
    Returns the node the loop stops at together with the stack. *)
Fixpoint member_names (fuel : nat) (h : heap) (func : value)
    (name : list value) : result (value * list value) :=
  match fuel with
  | O => Err OutOfFuel
  | S fuel =>
      ty ← get h func "type";
      if strict_eq ty (VStr "MemberExpression")
      then
        property ← get h func "property";
        pname ← get h property "name";
        func ← get h func "object";
        member_names fuel h func (name ++ [pname])
      else Ok (func, name)
  end.

(** [getFullItemName(func)] *)
Definition getFullItemName (fuel : nat) (h : heap) (func : value)
    : result value :=
  (* Unwrap the possible call expression. *)
  ty ← get h func "type";
  func ← (if strict_eq ty (VStr "CallExpression")
          then get h func "callee" else Ok func);
  (* Resolve the name stack from the member expression. *)
  fn ← member_names fuel h func [];
  let func := fn.1 in
  let name := fn.2 in
  (* Ensure the last object name is an identifier at this point. *)
  ty ← get h func "type";
  name ← (if strict_eq ty (VStr "Identifier")
          then fname ← get h func "name"; Ok (name ++ [fname])
          else Ok name);
  (* Reverse the stack and join the names using '.' *)
  let name := reverse name in
  name ← join h "." name;
  Ok (VStr name).

(** [getPartialItemName(func)] *)
Definition getPartialItemName (h : heap) (func : value) : result value :=
  (* Unwrap the possible call expression. *)
  ty ← get h func "type";
  func ← (if strict_eq ty (VStr "CallExpression")
          then get h func "callee" else Ok func);
  (* Unwrap the member expressions and get the last identifier. *)
  ty ← get h func "type";
  let isMember := strict_eq ty (VStr "MemberExpression") in
  node ← getIdentifier h func;
  if negb (to_boolean node)
  then Ok VUndef
  else
    nname ← get h node "name";
    s ← str_add h (if isMember then "." else "") nname;
    Ok (VStr s).

(** The [while] loop of [getParentFunctionIdentifier]: the closest function,
    starting at [func] and following [parent]. *)
Fixpoint closest_function (fuel : nat) (h : heap) (func : value)
    : result value :=
  match fuel with
  | O => Err OutOfFuel
  | S fuel =>
      continue ←
        Ok (to_boolean func)
        &&& (ty ← get h func "type";
             Ok (strict_neq ty (VStr "FunctionExpression")))
        &&& (ty ← get h func "type";
             Ok (strict_neq ty (VStr "FunctionDeclaration")))
        &&& (ty ← get h func "type";
             Ok (strict_neq ty (VStr "ArrowFunctionExpression")));
      if (continue : bool)
      then
        (* Continue getting the parent. *)
        func ← get h func "parent";
        closest_function fuel h func
      else Ok func
  end.

(** The part of [getParentFunctionIdentifier] after the loop, on the node
    [func] the loop stopped at. *)
Definition function_identifier (h : heap) (func : value) : result value :=
  (* If the function is named, return the function name. *)
  id ← get h func "id";
  if to_boolean id
  then get h func "id"
  else
    (* Otherwise see if it is being assigned to a variable. *)
    parent ← get h func "parent";
    isDeclarator ←
      Ok (to_boolean parent)
      &&& (ty ← get h parent "type";
           Ok (strict_eq ty (VStr "VariableDeclarator")));
    if (isDeclarator : bool)
    then get h parent "id"
    else
      isAssignment ←
        Ok (to_boolean parent)
        &&& (ty ← get h parent "type";
             Ok (strict_eq ty (VStr "AssignmentExpression")));
      if (isAssignment : bool)
      then get h parent "left"
      else Ok VNull.

(** [getParentFunctionIdentifier(node)] *)
Definition getParentFunctionIdentifier (fuel : nat) (h : heap) (node : value)
    : result value :=
  (* We'll want to get the closest function. *)
  func ← closest_function fuel h node;
  function_identifier h func.

(** [isParameter(node, expr)] *)
Definition isParameter (h : heap) (node expr : value) : result bool :=
  ty ← get h expr "type";
  if strict_eq ty (VStr "CallExpression")
  then
    (* Check whether any of the call arguments equals the node. *)
    args ← get h expr "arguments";
    forEach h args
      (λ a isParameter, if strict_eq a node then true else isParameter)
      false
  else
  ty ← get h expr "type";
  if strict_eq ty (VStr "AssignmentExpression")
  then
    (* Assignments count the right side as the paramter. *)
    right ← get h expr "right";
    Ok (strict_eq right node)
  else
  ty ← get h expr "type";
  if strict_eq ty (VStr "VariableDeclarator")
  then
    (* Declaration count the init expression as the paramter. *)
    init ← get h expr "init";
    Ok (strict_eq init node)
  else
  ty ← get h expr "type";
  if strict_eq ty (VStr "Property")
  then
    (* Properties consider the property value as the parameter. *)
    val ← get h expr "value";
    Ok (strict_eq val node)
  else
  ty ← get h expr "type";
  if strict_eq ty (VStr "ArrayExpression")
  then
    (* For arrays check whether the node is any of the elements. *)
    elements ← get h expr "elements";
    forEach h elements
      (λ e isElement, if strict_eq e node then true else isElement)
      false
  else
  ty ← get h expr "type";
  if strict_eq ty (VStr "FunctionExpression")
  then
    (* Function expression has no 'parameters'. *)
    Ok false
  else
  ty ← get h expr "type";
  if strict_eq ty (VStr "ConditionalExpression")
  then
    alternate ← get h expr "alternate";
    if strict_eq node alternate
    then Ok true
    else
      consequent ← get h expr "consequent";
      Ok (strict_eq node consequent)
  else
  ty ← get h expr "type";
  if strict_eq ty (VStr "ArrowFunctionExpression")
  then
    body ← get h expr "body";
    Ok (strict_eq node body)
  else Ok true.

End tree.

(** ** Sample programs

    The trees the parser builds for a few small programs, laid out in a
    store.  [node ty fs] is the object [{ type: ty, ...fs }]. *)

Definition node (ty : string) (fs : list (string * value)) : obj :=
  OObj (list_to_map (("type", VStr ty) :: fs)).

Definition ident (name : string) (parent : value) : obj :=
  node "Identifier" [("name", VStr name); ("parent", parent)].

Definition member (object property : nat) (computed : bool) (parent : value)
    : obj :=
  node "MemberExpression"
    [("object", VRef object); ("property", VRef property);
     ("computed", VBool computed); ("parent", parent)].

(** [a.b.c(x);] -- the call is at 2, the chain [a.b.c] at 4, [x] at 10. *)
Definition prog_call : heap :=
  list_to_map
    [(0, node "Program" [("body", VRef 20); ("parent", VNull)]);
     (20, OArr [VRef 1]);
     (1, node "ExpressionStatement"
           [("expression", VRef 2); ("parent", VRef 0)]);
     (2, node "CallExpression"
           [("callee", VRef 4); ("arguments", VRef 3); ("parent", VRef 1)]);
     (3, OArr [VRef 10]);
     (4, member 5 6 false (VRef 2));
     (5, member 7 8 false (VRef 4));
     (6, ident "c" (VRef 4));
     (7, ident "a" (VRef 5));
     (8, ident "b" (VRef 5));
     (10, ident "x" (VRef 2))].

(** [a[0].b(x);] -- the call is at 2, [a[0].b] at 4, [a[0]] at 5 and the
    literal [0], a node without a [name], at 8. *)
Definition prog_computed : heap :=
  list_to_map
    [(0, node "Program" [("body", VRef 20); ("parent", VNull)]);
     (20, OArr [VRef 1]);
     (1, node "ExpressionStatement"
           [("expression", VRef 2); ("parent", VRef 0)]);
     (2, node "CallExpression"
           [("callee", VRef 4); ("arguments", VRef 3); ("parent", VRef 1)]);
     (3, OArr [VRef 10]);
     (4, member 5 6 false (VRef 2));
     (5, member 7 8 true (VRef 4));
     (6, ident "b" (VRef 4));
     (7, ident "a" (VRef 5));
     (8, node "Literal" [("raw", VStr "0"); ("parent", VRef 5)]);
     (10, ident "x" (VRef 2))].

(** The program [a[0].b(x);] with the [computed] flag of [a[0]] set to
    [c]. *)
Definition prog_computed_flag (c : bool) : heap :=
  <[5 := member 7 8 c (VRef 4)]> prog_computed.

(** [f();] -- the call is at 2, [f] at 4. *)
Definition prog_bare : heap :=
  list_to_map
    [(0, node "Program" [("body", VRef 20); ("parent", VNull)]);
     (20, OArr [VRef 1]);
     (1, node "ExpressionStatement"
           [("expression", VRef 2); ("parent", VRef 0)]);
     (2, node "CallExpression"
           [("callee", VRef 4); ("arguments", VRef 3); ("parent", VRef 1)]);
     (3, OArr []);
     (4, ident "f" (VRef 2))].

(** [x(x);] -- the call is at 2, the callee [x] at 4 and the argument [x] at
    10: two nodes with the same fields at different places. *)
Definition prog_same : heap :=
  list_to_map
    [(0, node "Program" [("body", VRef 20); ("parent", VNull)]);
     (20, OArr [VRef 1]);
     (1, node "ExpressionStatement"
           [("expression", VRef 2); ("parent", VRef 0)]);
     (2, node "CallExpression"
           [("callee", VRef 4); ("arguments", VRef 3); ("parent", VRef 1)]);
     (3, OArr [VRef 10]);
     (4, ident "x" (VRef 2));
     (10, ident "x" (VRef 2))].

(** [this.m;] -- the member expression is at 2, [this] at 3. *)
Definition prog_this : heap :=
  list_to_map
    [(0, node "Program" [("body", VRef 20); ("parent", VNull)]);
     (20, OArr [VRef 1]);
     (1, node "ExpressionStatement"
           [("expression", VRef 2); ("parent", VRef 0)]);
     (2, member 3 4 false (VRef 1));
     (3, node "ThisExpression" [("parent", VRef 2)]);
     (4, ident "m" (VRef 2))].

(** [function foo() { return x; }] -- the declaration is at 1, [foo] at 2,
    the [return] at 4 and [x] at 5. *)
Definition prog_decl : heap :=
  list_to_map
    [(0, node "Program" [("body", VRef 20); ("parent", VNull)]);
     (20, OArr [VRef 1]);
     (1, node "FunctionDeclaration"
           [("id", VRef 2); ("params", VRef 21); ("body", VRef 3);
            ("parent", VRef 0)]);
     (21, OArr []);
     (2, ident "foo" (VRef 1));
     (3, node "BlockStatement" [("body", VRef 22); ("parent", VRef 1)]);
     (22, OArr [VRef 4]);
     (4, node "ReturnStatement" [("argument", VRef 5); ("parent", VRef 3)]);
     (5, ident "x" (VRef 4))].

(** [var bar = function () { return x; };] -- the declarator is at 2, [bar]
    at 3, the function at 4, the [return] at 6 and [x] at 7. *)
Definition prog_var : heap :=
  list_to_map
    [(0, node "Program" [("body", VRef 20); ("parent", VNull)]);
     (20, OArr [VRef 1]);
     (1, node "VariableDeclaration"
           [("declarations", VRef 21); ("kind", VStr "var");
            ("parent", VRef 0)]);
     (21, OArr [VRef 2]);
     (2, node "VariableDeclarator"
           [("id", VRef 3); ("init", VRef 4); ("parent", VRef 1)]);
     (3, ident "bar" (VRef 2));
     (4, node "FunctionExpression"
           [("id", VNull); ("params", VRef 22); ("body", VRef 5);
            ("parent", VRef 2)]);
     (22, OArr []);
     (5, node "BlockStatement" [("body", VRef 23); ("parent", VRef 4)]);
     (23, OArr [VRef 6]);
     (6, node "ReturnStatement" [("argument", VRef 7); ("parent", VRef 5)]);
     (7, ident "x" (VRef 6))].

(** [a.b = function () { return x; };] -- the assignment is at 2, its left
    side [a.b] at 3, the function at 4, the [return] at 6 and [x] at 7. *)
Definition prog_assign : heap :=
  list_to_map
    [(0, node "Program" [("body", VRef 20); ("parent", VNull)]);
     (20, OArr [VRef 1]);
     (1, node "ExpressionStatement"
           [("expression", VRef 2); ("parent", VRef 0)]);
     (2, node "AssignmentExpression"
           [("operator", VStr "="); ("left", VRef 3); ("right", VRef 4);
            ("parent", VRef 1)]);
     (3, member 8 9 false (VRef 2));
     (8, ident "a" (VRef 3));
     (9, ident "b" (VRef 3));
     (4, node "FunctionExpression"
           [("id", VNull); ("params", VRef 22); ("body", VRef 5);
            ("parent", VRef 2)]);
     (22, OArr []);
     (5, node "BlockStatement" [("body", VRef 23); ("parent", VRef 4)]);
     (23, OArr [VRef 6]);
     (6, node "ReturnStatement" [("argument", VRef 7); ("parent", VRef 5)]);
     (7, ident "x" (VRef 6))].

(** [function outer() { var inner = function () {}; }] -- the outer
    function is at 1, [outer] at 2, the declarator at 5, [inner] at 6 and
    the inner function at 7. *)
Definition prog_nested : heap :=
  list_to_map
    [(0, node "Program" [("body", VRef 20); ("parent", VNull)]);
     (20, OArr [VRef 1]);
     (1, node "FunctionDeclaration"
           [("id", VRef 2); ("params", VRef 21); ("body", VRef 3);
            ("parent", VRef 0)]);
     (21, OArr []);
     (2, ident "outer" (VRef 1));
     (3, node "BlockStatement" [("body", VRef 22); ("parent", VRef 1)]);
     (22, OArr [VRef 4]);
     (4, node "VariableDeclaration"
           [("declarations", VRef 23); ("kind", VStr "var");
            ("parent", VRef 3)]);
     (23, OArr [VRef 5]);
     (5, node "VariableDeclarator"
           [("id", VRef 6); ("init", VRef 7); ("parent", VRef 4)]);
     (6, ident "inner" (VRef 5));
     (7, node "FunctionExpression"
           [("id", VNull); ("params", VRef 24); ("body", VRef 8);
            ("parent", VRef 5)]);
     (24, OArr []);
     (8, node "BlockStatement" [("body", VRef 25); ("parent", VRef 7)]);
     (25, OArr [])].

(** [f()();] -- the outer call is at 2, the inner call [f()] at 4 and [f]
    at 5. *)
Definition prog_double : heap :=
  list_to_map
    [(0, node "Program" [("body", VRef 20); ("parent", VNull)]);
     (20, OArr [VRef 1]);
     (1, node "ExpressionStatement"
           [("expression", VRef 2); ("parent", VRef 0)]);
     (2, node "CallExpression"
           [("callee", VRef 4); ("arguments", VRef 3); ("parent", VRef 1)]);
     (3, OArr []);
     (4, node "CallExpression"
           [("callee", VRef 5); ("arguments", VRef 6); ("parent", VRef 2)]);
     (6, OArr []);
     (5, ident "f" (VRef 4))].

(** [a[b]();] -- the call is at 2, the computed access [a[b]] at 4, [a] at
    5 and [b] at 6. *)
Definition prog_index : heap :=
  list_to_map
    [(0, node "Program" [("body", VRef 20); ("parent", VNull)]);
     (20, OArr [VRef 1]);
     (1, node "ExpressionStatement"
           [("expression", VRef 2); ("parent", VRef 0)]);
     (2, node "CallExpression"
           [("callee", VRef 4); ("arguments", VRef 3); ("parent", VRef 1)]);
     (3, OArr []);
     (4, member 5 6 true (VRef 2));
     (5, ident "a" (VRef 4));
     (6, ident "b" (VRef 4))].

(** ** Well-formed trees

    What the parser guarantees about the fields this module reads, stated
    on the store.  A node missing a field its kind requires is outside the
    module's contract. *)

(** The field [k] of the object with own properties [fields]. *)
Definition fld (fields : gmap string value) (k : string) : value :=
  default VUndef (fields !! k).

Definition is_node (h : heap) (v : value) : bool :=
  match v with
  | VRef l => match h !! l with Some (OObj _) => true | _ => false end
  | _ => false
  end.

Definition is_array (h : heap) (v : value) : bool :=
  match v with
  | VRef l => match h !! l with Some (OArr _) => true | _ => false end
  | _ => false
  end.

Definition is_str (v : value) : bool :=
  match v with VStr _ => true | _ => false end.

Definition is_nullish (v : value) : bool :=
  match v with VUndef | VNull => true | _ => false end.

(** The check of one node: its [type] is a string, its [parent] is absent,
    [null] or a node, and the children its kind requires are there. *)
Definition estree_node (h : heap) (fields : gmap string value) : bool :=
  let ty := fld fields "type" in
  is_str ty
  && (is_nullish (fld fields "parent") || is_node h (fld fields "parent"))
  && (if strict_eq ty (VStr "Identifier")
      then is_str (fld fields "name") else true)
  && (if strict_eq ty (VStr "CallExpression")
      then is_node h (fld fields "callee")
           && is_array h (fld fields "arguments")
      else true)
  && (if strict_eq ty (VStr "MemberExpression")
      then is_node h (fld fields "object")
           && is_node h (fld fields "property")
      else true)
  && (if strict_eq ty (VStr "ArrayExpression")
      then is_array h (fld fields "elements") else true).

Definition estree_obj (h : heap) (o : obj) : bool :=
  match o with
  | OObj fields => estree_node h fields
  | OArr _ => true
  end.

Definition estree (h : heap) : Prop :=
  map_Forall (λ _ o, estree_obj h o = true) h.

#[global] Instance estree_dec h : Decision (estree h).
Proof. unfold estree. apply _. Defined.

(** ** The unwrap steps, as the specification words them *)

(** Step 1: a [CallExpression] is replaced with its [callee]. *)
Definition unwrap_call (h : heap) (node : value) : result value :=
  ty ← get h node "type";
  if strict_eq ty (VStr "CallExpression") then get h node "callee"
  else Ok node.

(** Step 2: a [MemberExpression] is replaced with its [object] when
    [computed], and with its [property] otherwise. *)
Definition unwrap_member (h : heap) (node : value) : result value :=
  ty ← get h node "type";
  if strict_eq ty (VStr "MemberExpression")
  then
    computed ← get h node "computed";
    if to_boolean computed then get h node "object"
    else get h node "property"
  else Ok node.

(** ** The walks and names the properties speak of *)

(** A value found in a [name] field: a string, or [undefined] when the node
    has no [name]. *)
Definition is_name (v : value) : bool :=
  match v with VUndef | VStr _ => true | _ => false end.

(** The text of a segment: the string itself, and nothing for
    [undefined]. *)
Definition seg_text (v : value) : string :=
  match v with VStr s => s | _ => "" end.

(** The walk of [getFullItemName]'s loop, written as a relation:
    [member_chain h v segs base] says that from [v] the loop passes through
    member expressions whose [property.name] values are [segs], in the order
    met, and stops at [base], the first node that is no member
    expression. *)
Inductive member_chain (h : heap) : value → list value → value → Prop :=
  | chain_end v ty :
      get h v "type" = Ok ty →
      ty ≠ VStr "MemberExpression" →
      member_chain h v [] v
  | chain_member v property pname object segs base :
      get h v "type" = Ok (VStr "MemberExpression") →
      get h v "property" = Ok property →
      get h property "name" = Ok pname →
      get h v "object" = Ok object →
      member_chain h object segs base →
      member_chain h v (pname :: segs) base.

(** The segment the base contributes: its [name] when it is an
    [Identifier], nothing otherwise. *)
Definition base_names (h : heap) (base : value) : list value :=
  match get h base "type", get h base "name" with
  | Ok ty, Ok n => if strict_eq ty (VStr "Identifier") then [n] else []
  | _, _ => []
  end.

(** The container kinds [isParameter] tells apart. *)
Definition known_containers : list string :=
  ["CallExpression"; "AssignmentExpression"; "VariableDeclarator";
   "Property"; "ArrayExpression"; "FunctionExpression";
   "ConditionalExpression"; "ArrowFunctionExpression"].

(** The node types the ancestor walk stops at. *)
Definition is_function_type (ty : value) : bool :=
  strict_eq ty (VStr "FunctionExpression")
  || strict_eq ty (VStr "FunctionDeclaration")
  || strict_eq ty (VStr "ArrowFunctionExpression").

(** [closest h node d f]: the walk from [node] along [parent] links meets
    its first function-like node, [f], after [d] links. *)
Inductive closest (h : heap) : value → nat → value → Prop :=
  | closest_here v ty :
      get h v "type" = Ok ty →
      is_function_type ty = true →
      closest h v 0 v
  | closest_up v ty p d f :
      to_boolean v = true →
      get h v "type" = Ok ty →
      is_function_type ty = false →
      get h v "parent" = Ok p →
      closest h p d f →
      closest h v (S d) f.

(** [off_root h node d]: the walk from [node] passes [d] nodes, none of them
    function-like, and then runs off the root: the last [parent] link read
    is [null] or [undefined]. *)
Inductive off_root (h : heap) : value → nat → Prop :=
  | off_root_here v :
      is_nullish v = true →
      off_root h v 0
  | off_root_up v ty p d :
      to_boolean v = true →
      get h v "type" = Ok ty →
      is_function_type ty = false →
      get h v "parent" = Ok p →
      off_root h p d →
      off_root h v (S d).

(** The field [k] of a value, [undefined] where the read is not possible. *)
Definition field (h : heap) (v : value) (k : string) : value :=
  match get h v k with
  | Ok x => x
  | Err _ => VUndef
  end.

(** Whether [v] is a node of type [t]. *)
Definition has_type (h : heap) (v : value) (t : string) : bool :=
  match get h v "type" with
  | Ok ty => strict_eq ty (VStr t)
  | Err _ => false
  end.

(** The name of the function node [f], as the specification words it: its
    own [id] if it has one; otherwise the [id] of the declarator it
    initialises, or the [left] of the assignment it is the parent's child
    of; otherwise [null]. *)
Definition enclosing_name (h : heap) (f : value) : value :=
  if to_boolean (field h f "id") then field h f "id"
  else
    let parent := field h f "parent" in
    if has_type h parent "VariableDeclarator" then field h parent "id"
    else if has_type h parent "AssignmentExpression"
         then field h parent "left"
    else VNull.

(** That every value [getParentFunctionIdentifier] returns on a well-formed
    tree is [null] or an [Identifier] node. *)
Definition returns_identifier_or_null : Prop :=
  ∀ (h : heap) (node : value) (fuel : nat) (v : value),
    estree h →
    tree.getParentFunctionIdentifier fuel h node = Ok v →
    v ≠ VNull →
    get h v "type" = Ok (VStr "Identifier").

(** The check of one stored object: if it is a function-like node, the
    node that names it, if any, is an [Identifier]. *)
Definition named_ok (h : heap) (l : nat) (o : obj) : bool :=
  match o with
  | OObj fields =>
      if is_function_type (fld fields "type")
      then strict_eq (enclosing_name h (VRef l)) VNull
           || has_type h (enclosing_name h (VRef l)) "Identifier"
      else true
  | OArr _ => true
  end.

(** Every function of the tree is named by an [Identifier] or not at all:
    its own [id], else the [id] of its parent declarator, else the [left]
    of its parent assignment, is no pattern and no member expression. *)
Definition identifier_named (h : heap) : Prop :=
  map_Forall (λ l o, named_ok h l o = true) h.

#[global] Instance identifier_named_dec h : Decision (identifier_named h).
Proof. unfold identifier_named. apply _. Defined.

(** ** Basic facts *)

Lemma bind_Ok {A B} (f : A → result B) (a : A) : (Ok a ≫= f) = f a.
Proof. reflexivity. Qed.

Lemma bind_Err {A B} (f : A → result B) (e : error) : (Err e ≫= f) = Err e.
Proof. reflexivity. Qed.

Lemma bind_inv {A B} (f : A → result B) (m : result A) (b : B) :
  (m ≫= f) = Ok b → ∃ a, m = Ok a ∧ f a = Ok b.
Proof. destruct m as [a|e]; [eauto | discriminate]. Qed.

Lemma strict_eq_true a b : strict_eq a b = true ↔ a = b.
Proof. unfold strict_eq. apply bool_decide_eq_true. Qed.

Lemma strict_eq_false a b : strict_eq a b = false ↔ a ≠ b.
Proof. unfold strict_eq. apply bool_decide_eq_false. Qed.

Lemma strict_eq_refl a : strict_eq a a = true.
Proof. by apply strict_eq_true. Qed.

(** A read that succeeds on one property name succeeds on all of them. *)
Lemma get_Ok_any h v k x k' : get h v k = Ok x → ∃ y, get h v k' = Ok y.
Proof.
  destruct v as [| | b | s | l]; simpl; try discriminate; eauto.
  destruct (h !! l) as [[fields | elems] |]; try discriminate; eauto.
Qed.

(** A value whose [type] is a string is a reference to a plain object. *)
Lemma get_type_str h v t :
  get h v "type" = Ok (VStr t) →
  ∃ l fields, v = VRef l ∧ h !! l = Some (OObj fields)
              ∧ fields !! "type" = Some (VStr t).
Proof.
  destruct v as [| | b | s | l]; simpl; try discriminate.
  destruct (h !! l) as [[fields | elems] |] eqn:Hl; try discriminate.
  intros [= Hty]. exists l, fields. split_and!; [done | done |].
  destruct (fields !! "type"); simpl in Hty; congruence.
Qed.

Lemma get_obj h l fields k :
  h !! l = Some (OObj fields) → get h (VRef l) k = Ok (fld fields k).
Proof. intros Hl. simpl. by rewrite Hl. Qed.

(** Rewrite the reads of the object that [Hl] places in the store. *)
Ltac reads Hl :=
  let Hg := fresh in
  pose proof (λ k, get_obj _ _ _ k Hl) as Hg; rewrite ?Hg; clear Hg.

Ltac run := repeat (simpl; rewrite ?bind_Ok, ?bind_Err, ?strict_eq_refl).

(** ** [getIdentifier] *)

(** What [getIdentifier] does after the two unwrap steps. *)
Lemma getIdentifier_unwrapped h node n1 n2 ty :
  unwrap_call h node = Ok n1 →
  unwrap_member h n1 = Ok n2 →
  get h n2 "type" = Ok ty →
  tree.getIdentifier h node
  = Ok (if strict_eq ty (VStr "Identifier") then n2 else VNull).
Proof.
  unfold unwrap_call, unwrap_member, tree.getIdentifier.
  intros (ty0 & -> & H1)%bind_inv (ty1 & Hty1 & H2)%bind_inv Hty.
  run. rewrite H1. run. rewrite Hty1. run. rewrite H2. run. rewrite Hty. run.
  unfold strict_neq. by destruct (strict_eq ty (VStr "Identifier")).
Qed.

Lemma unwrap_call_other h node ty :
  get h node "type" = Ok ty → ty ≠ VStr "CallExpression" →
  unwrap_call h node = Ok node.
Proof.
  intros Hty Hne. unfold unwrap_call. rewrite Hty. run.
  by apply strict_eq_false in Hne as ->.
Qed.

Lemma unwrap_member_other h node ty :
  get h node "type" = Ok ty → ty ≠ VStr "MemberExpression" →
  unwrap_member h node = Ok node.
Proof.
  intros Hty Hne. unfold unwrap_member. rewrite Hty. run.
  by apply strict_eq_false in Hne as ->.
Qed.

(** C8. [getIdentifier] is the identity on [Identifier] nodes: applied to a
    node whose [type] is ['Identifier'] it returns that very node.  And when
    the node reached by the two unwrap steps ([CallExpression] to its
    [callee], then [MemberExpression] to its [object] if [computed] and to
    its [property] otherwise) is not an [Identifier], it returns [null]. *)
Theorem getIdentifier_identity_or_null (h : heap) :
  (∀ n, get h n "type" = Ok (VStr "Identifier") → tree.getIdentifier h n = Ok n)
  ∧ (∀ node n1 n2 ty,
       unwrap_call h node = Ok n1 →
       unwrap_member h n1 = Ok n2 →
       get h n2 "type" = Ok ty →
       ty ≠ VStr "Identifier" →
       tree.getIdentifier h node = Ok VNull).
Proof.
  split.
  - intros n Hty.
    rewrite (getIdentifier_unwrapped h n n n (VStr "Identifier")); try done.
    + by eapply unwrap_call_other.
    + by eapply unwrap_member_other.
  - intros node n1 n2 ty H1 H2 Hty Hne.
    rewrite (getIdentifier_unwrapped h node n1 n2 ty); try done.
    by apply strict_eq_false in Hne as ->.
Qed.

(** On the program [a.b.c(x);]: the identifier [a] resolves to itself, and
    the expression statement, which no unwrap step changes, to [null]. *)
Lemma getIdentifier_identity_or_null_witness :
  tree.getIdentifier prog_call (VRef 7) = Ok (VRef 7)
  ∧ tree.getIdentifier prog_call (VRef 1) = Ok VNull.
Proof.
  split.
  - apply (proj1 (getIdentifier_identity_or_null prog_call)). reflexivity.
  - apply (proj2 (getIdentifier_identity_or_null prog_call)
             (VRef 1) (VRef 1) (VRef 1) (VStr "ExpressionStatement"));
      [reflexivity | reflexivity | reflexivity | discriminate].
Defined.

(** ** Consequences of well-formedness *)

Lemma is_node_inv h v :
  is_node h v = true → ∃ l fields, v = VRef l ∧ h !! l = Some (OObj fields).
Proof.
  destruct v as [| | b | s | l]; simpl; try discriminate.
  destruct (h !! l) as [[fields | elems] |] eqn:Hl; try discriminate. eauto.
Qed.

Lemma is_str_inv v : is_str v = true → ∃ s, v = VStr s.
Proof. destruct v; simpl; try discriminate. eauto. Qed.

Lemma estree_node_inv h fields :
  estree_node h fields = true →
  is_str (fld fields "type") = true
  ∧ (is_nullish (fld fields "parent") = true
     ∨ is_node h (fld fields "parent") = true)
  ∧ (fld fields "type" = VStr "Identifier" →
     is_str (fld fields "name") = true)
  ∧ (fld fields "type" = VStr "CallExpression" →
     is_node h (fld fields "callee") = true
     ∧ is_array h (fld fields "arguments") = true)
  ∧ (fld fields "type" = VStr "MemberExpression" →
     is_node h (fld fields "object") = true
     ∧ is_node h (fld fields "property") = true)
  ∧ (fld fields "type" = VStr "ArrayExpression" →
     is_array h (fld fields "elements") = true).
Proof.
  unfold estree_node. intros H.
  repeat (apply andb_prop in H as [H ?]).
  split_and!; try done.
  - by apply orb_prop.
  - intros E. by rewrite E, strict_eq_refl in *.
  - intros E. rewrite E, strict_eq_refl in *. by apply andb_prop.
  - intros E. rewrite E, strict_eq_refl in *. by apply andb_prop.
  - intros E. by rewrite E, strict_eq_refl in *.
Qed.

Lemma is_node_get h v k : is_node h v = true → ∃ x, get h v k = Ok x.
Proof.
  intros (l & fields & -> & Hl)%is_node_inv.
  reads Hl. eauto.
Qed.

(** [getIdentifier] returns [null] or a node whose [type] is
    ['Identifier']. *)
Lemma getIdentifier_result h node id :
  tree.getIdentifier h node = Ok id →
  id = VNull ∨ get h id "type" = Ok (VStr "Identifier").
Proof.
  unfold tree.getIdentifier.
  intros (ty0 & _ & (n1 & _ & (ty1 & _ & (n2 & _ & (ty & Hty & H)%bind_inv)
    %bind_inv)%bind_inv)%bind_inv)%bind_inv.
  unfold strict_neq in H. destruct (strict_eq ty _) eqn:E; simpl in H.
  - apply strict_eq_true in E as ->. injection H as ->. by right.
  - injection H as <-. by left.
Qed.

(** On a well-formed tree the unwrap steps and [getIdentifier] return. *)
Section well_formed.
Variable h : heap.
Hypothesis Hwf : estree h.

Lemma estree_lookup l fields :
  h !! l = Some (OObj fields) → estree_node h fields = true.
Proof. intros Hl. exact (map_Forall_lookup_1 _ _ _ _ Hwf Hl). Qed.

(** The call unwrap leads from a node to a node. *)
Lemma unwrap_call_node node :
  is_node h node = true →
  ∃ n1, unwrap_call h node = Ok n1 ∧ is_node h n1 = true.
Proof.
  intros Hn. destruct (is_node_inv _ _ Hn) as (l & fields & -> & Hl).
  unfold unwrap_call. reads Hl. run.
  destruct (strict_eq _ _) eqn:E; [| eauto].
  apply strict_eq_true in E.
  pose proof (estree_node_inv _ _ (estree_lookup _ _ Hl))
    as (_ & _ & _ & Hcall & _).
  destruct (Hcall E) as [Hc _]. eauto.
Qed.

(** So does the member unwrap. *)
Lemma unwrap_member_node node :
  is_node h node = true →
  ∃ n2, unwrap_member h node = Ok n2 ∧ is_node h n2 = true.
Proof.
  intros Hn. destruct (is_node_inv _ _ Hn) as (l & fields & -> & Hl).
  unfold unwrap_member. reads Hl. run.
  destruct (strict_eq _ _) eqn:E; [| eauto].
  apply strict_eq_true in E.
  pose proof (estree_node_inv _ _ (estree_lookup _ _ Hl))
    as (_ & _ & _ & _ & Hmem & _).
  destruct (Hmem E) as [Ho Hp]. destruct (to_boolean _); eauto.
Qed.

(** [getIdentifier] returns. *)
Lemma getIdentifier_total node :
  is_node h node = true → ∃ id, tree.getIdentifier h node = Ok id.
Proof.
  intros Hn.
  destruct (unwrap_call_node _ Hn) as (n1 & H1 & Hn1).
  destruct (unwrap_member_node _ Hn1) as (n2 & H2 & Hn2).
  destruct (is_node_get _ _ "type" Hn2) as (ty & Hty).
  rewrite (getIdentifier_unwrapped _ _ _ _ _ H1 H2 Hty). eauto.
Qed.
End well_formed.

(** The sample programs are well-formed. *)
Lemma estree_prog_call : estree prog_call.
Proof. apply (bool_decide_unpack (estree prog_call)). by vm_compute. Qed.

Lemma estree_prog_decl : estree prog_decl.
Proof. apply (bool_decide_unpack (estree prog_decl)). by vm_compute. Qed.

Lemma estree_prog_var : estree prog_var.
Proof. apply (bool_decide_unpack (estree prog_var)). by vm_compute. Qed.

Lemma estree_prog_assign : estree prog_assign.
Proof. apply (bool_decide_unpack (estree prog_assign)). by vm_compute. Qed.

Lemma estree_prog_nested : estree prog_nested.
Proof. apply (bool_decide_unpack (estree prog_nested)). by vm_compute. Qed.

(** ** [getNodeName] *)

(** C9. [getNodeName] returns the string ['this'] for every
    [ThisExpression] node.  For a node of any other type it returns the
    [name] of the [Identifier] that [getIdentifier] produces when that is not
    [null], and the empty string when it is [null].  On a node of a
    well-formed tree it never fails: it returns a string. *)
Theorem getNodeName_this_name_or_empty (h : heap) (node : value) :
  (get h node "type" = Ok (VStr "ThisExpression") →
   tree.getNodeName h node = Ok (VStr "this"))
  ∧ (∀ ty, get h node "type" = Ok ty → ty ≠ VStr "ThisExpression" →
       (∀ id, tree.getIdentifier h node = Ok id → id ≠ VNull →
          get h id "type" = Ok (VStr "Identifier")
          ∧ tree.getNodeName h node = get h id "name")
       ∧ (tree.getIdentifier h node = Ok VNull →
          tree.getNodeName h node = Ok (VStr "")))
  ∧ (estree h → is_node h node = true →
     ∃ s, tree.getNodeName h node = Ok (VStr s)).
Proof.
  split_and!.
  - intros Hty. unfold tree.getNodeName. rewrite Hty. by run.
  - intros ty Hty Hne. unfold tree.getNodeName. rewrite Hty. run.
    apply strict_eq_false in Hne as ->. split.
    + intros id Hid Hnn.
      destruct (getIdentifier_result _ _ _ Hid) as [-> | Hidty]; [done |].
      split; [done |]. rewrite Hid. run.
      by destruct (get_type_str _ _ _ Hidty) as (l & fields & -> & _).
    + intros Hid. rewrite Hid. by run.
  - intros Hwf Hn. unfold tree.getNodeName.
    destruct (is_node_get _ _ "type" Hn) as (ty & ->). run.
    destruct (strict_eq ty _); [eauto |].
    destruct (getIdentifier_total _ Hwf _ Hn) as (id & Hid). rewrite Hid. run.
    destruct (getIdentifier_result _ _ _ Hid) as [-> | Hidty]; [eauto |].
    destruct (get_type_str _ _ _ Hidty) as (l & fields & -> & Hl & Hf).
    simpl. rewrite Hl.
    pose proof (estree_node_inv _ _ (estree_lookup _ Hwf _ _ Hl))
      as (_ & _ & Hname & _).
    destruct (is_str_inv (fld fields "name")) as (s & Hs).
    { apply Hname. unfold fld. by rewrite Hf. }
    exists s. by rewrite <- Hs.
Qed.

(** On [this.m;] and [a.b.c(x);]: the [this] node is named ['this'], the
    call is named after the identifier [c] that [getIdentifier] gives for
    it, and the expression statement, for which it gives [null], has the
    empty name. *)
Lemma getNodeName_this_name_or_empty_witness :
  tree.getNodeName prog_this (VRef 3) = Ok (VStr "this")
  ∧ tree.getNodeName prog_call (VRef 2) = Ok (VStr "c")
  ∧ tree.getNodeName prog_call (VRef 1) = Ok (VStr "")
  ∧ ∃ s, tree.getNodeName prog_call (VRef 4) = Ok (VStr s).
Proof.
  split_and!.
  - apply (proj1 (getNodeName_this_name_or_empty prog_this (VRef 3))).
    reflexivity.
  - apply (proj1 (proj1 (proj2 (getNodeName_this_name_or_empty
                                  prog_call (VRef 2)))
                    (VStr "CallExpression") eq_refl ltac:(discriminate))
             (VRef 6) eq_refl ltac:(discriminate)).
  - apply (proj2 (proj1 (proj2 (getNodeName_this_name_or_empty
                                  prog_call (VRef 1)))
                    (VStr "ExpressionStatement") eq_refl
                    ltac:(discriminate))).
    reflexivity.
  - apply (proj2 (proj2 (getNodeName_this_name_or_empty prog_call (VRef 4)))).
    + exact estree_prog_call.
    + reflexivity.
Defined.

(** ** [join] on names *)

Lemma string_app_assoc (s1 s2 s3 : string) :
  (s1 +:+ s2) +:+ s3 = s1 +:+ s2 +:+ s3.
Proof.
  induction s1 as [| c s1 IH]; [done |].
  change (String c ((s1 +:+ s2) +:+ s3) = String c (s1 +:+ s2 +:+ s3)).
  by rewrite IH.
Qed.

Lemma join_elem_name h v : is_name v = true → join_elem h v = Ok (seg_text v).
Proof. by destruct v. Qed.

Lemma join_from_names h sep l : ∀ acc,
  Forall (λ v, is_name v = true) l →
  join_from h sep acc l
  = Ok (match l with
        | [] => acc
        | _ => acc +:+ sep +:+ String.concat sep (seg_text <$> l)
        end).
Proof.
  induction l as [| v l IH]; intros acc Hl; [done |].
  apply Forall_cons in Hl as [Hv Hl]. simpl join_from.
  rewrite (join_elem_name _ _ Hv), bind_Ok, (IH _ Hl).
  destruct l as [| w l]; [done |].
  f_equal. change (seg_text <$> v :: w :: l)
    with (seg_text v :: seg_text w :: (seg_text <$> l)).
  change (seg_text <$> w :: l) with (seg_text w :: (seg_text <$> l)).
  cbn [String.concat]. by rewrite !string_app_assoc.
Qed.

(** On names, [join] is the concatenation with the separator in between. *)
Lemma join_names h sep l :
  Forall (λ v, is_name v = true) l →
  join h sep l = Ok (String.concat sep (seg_text <$> l)).
Proof.
  destruct l as [| v l]; [done |]. intros [Hv Hl]%Forall_cons. unfold join.
  rewrite (join_elem_name _ _ Hv), bind_Ok, (join_from_names _ _ _ _ Hl).
  by destruct l.
Qed.

(** ** [getFullItemName] *)

Lemma member_chain_base_type h v segs base :
  member_chain h v segs base → ∃ ty, get h base "type" = Ok ty.
Proof. induction 1; eauto. Qed.

Lemma member_names_chain h v segs base :
  member_chain h v segs base →
  ∀ fuel name, length segs < fuel →
    tree.member_names fuel h v name = Ok (base, name ++ segs).
Proof.
  induction 1 as [v ty Hty Hne | v property pname object segs base
                    Hty Hp Hn Ho _ IH]; intros fuel name Hfuel.
  - destruct fuel as [| fuel]; [simpl in Hfuel; lia |].
    simpl. rewrite Hty. run. apply strict_eq_false in Hne as ->.
    by rewrite app_nil_r.
  - destruct fuel as [| fuel]; [simpl in Hfuel; lia |].
    simpl. rewrite Hty. run. rewrite Hp. run. rewrite Hn. run.
    rewrite Ho. run. rewrite IH by (simpl in Hfuel; lia).
    by rewrite <- app_assoc.
Qed.

(** [getFullItemName] on a chain: the segments met, then the base's, are
    reversed and joined. *)
Lemma getFullItemName_chain h func f segs base fuel :
  unwrap_call h func = Ok f →
  member_chain h f segs base →
  length segs < fuel →
  tree.getFullItemName fuel h func
  = (s ← join h "." (reverse (segs ++ base_names h base)); Ok (VStr s)).
Proof.
  intros Hf Hch Hfuel. unfold tree.getFullItemName.
  unfold unwrap_call in Hf. apply bind_inv in Hf as (ty0 & -> & Hf).
  run. rewrite Hf. run.
  rewrite (member_names_chain _ _ _ _ Hch) by done. run.
  destruct (member_chain_base_type _ _ _ _ Hch) as (ty & Hty).
  unfold base_names. rewrite Hty. run.
  destruct (strict_eq ty _) eqn:E.
  - destruct (get_Ok_any _ _ _ _ "name" Hty) as (n & ->). by run.
  - destruct (get h base "name"); run; by rewrite ?app_nil_r.
Qed.

(** [getFullItemName] on a chain all of whose segments are names. *)
Lemma getFullItemName_names h func f segs base fuel :
  unwrap_call h func = Ok f →
  member_chain h f segs base →
  Forall (λ v, is_name v = true) (segs ++ base_names h base) →
  length segs < fuel →
  tree.getFullItemName fuel h func
  = Ok (VStr (String.concat "."
                (reverse (seg_text <$> segs ++ base_names h base)))).
Proof.
  intros Hf Hch Hnames Hfuel.
  rewrite (getFullItemName_chain _ _ _ _ _ _ Hf Hch Hfuel).
  rewrite join_names by by apply Forall_reverse.
  by rewrite fmap_reverse.
Qed.

Lemma base_names_identifier h base n :
  get h base "type" = Ok (VStr "Identifier") →
  get h base "name" = Ok n →
  base_names h base = [n].
Proof. intros Hty Hn. unfold base_names. by rewrite Hty, Hn. Qed.

Lemma seg_text_VStr (l : list string) : seg_text <$> (VStr <$> l) = l.
Proof. induction l as [| s l IH]; [done |]. simpl. by f_equal. Qed.

Lemma is_name_VStr (l : list string) :
  Forall (λ v, is_name v = true) (VStr <$> l).
Proof. induction l; by constructor. Qed.

(** The chain [a.b.c] of the program [a.b.c(x);]. *)
Lemma prog_call_chain :
  member_chain prog_call (VRef 4) [VStr "c"; VStr "b"] (VRef 7).
Proof.
  eapply (chain_member _ _ (VRef 6)); [reflexivity.. |].
  eapply (chain_member _ _ (VRef 8)); [reflexivity.. |].
  by eapply (chain_end _ _ (VStr "Identifier")).
Qed.

(** C2. [getFullItemName] gives ["a.b.c"] on the call expression of
    [a.b.c(x)] and on the bare member chain [a.b.c].  In general, on a chain
    of member expressions whose property names are [props], in the order the
    descent through [object] meets them (rightmost first) and whose base is
    the identifier [b], it gives the names reversed and joined with ['.'],
    so that the base identifier comes first. *)
Theorem getFullItemName_dotted_chain :
  (∀ fuel, 2 < fuel →
     tree.getFullItemName fuel prog_call (VRef 2) = Ok (VStr "a.b.c"))
  ∧ (∀ fuel, 2 < fuel →
       tree.getFullItemName fuel prog_call (VRef 4) = Ok (VStr "a.b.c"))
  ∧ (∀ h func f props base b fuel,
       unwrap_call h func = Ok f →
       member_chain h f (VStr <$> props) base →
       get h base "type" = Ok (VStr "Identifier") →
       get h base "name" = Ok (VStr b) →
       length props < fuel →
       tree.getFullItemName fuel h func
       = Ok (VStr (String.concat "." (reverse (props ++ [b]))))).
Proof.
  assert (∀ h func f props base b fuel,
            unwrap_call h func = Ok f →
            member_chain h f (VStr <$> props) base →
            get h base "type" = Ok (VStr "Identifier") →
            get h base "name" = Ok (VStr b) →
            length props < fuel →
            tree.getFullItemName fuel h func
            = Ok (VStr (String.concat "." (reverse (props ++ [b])))))
    as General.
  { intros h func f props base b fuel Hf Hch Hty Hn Hfuel.
    pose proof (base_names_identifier _ _ _ Hty Hn) as Hb.
    rewrite (getFullItemName_names _ _ _ _ _ _ Hf Hch).
    - rewrite Hb. change [VStr b] with (VStr <$> [b]).
      by rewrite <- fmap_app, seg_text_VStr.
    - rewrite Hb. change [VStr b] with (VStr <$> [b]).
      rewrite <- fmap_app. apply is_name_VStr.
    - by rewrite length_fmap in *. }
  split_and!; [| | exact General].
  - intros fuel Hfuel.
    apply (General prog_call (VRef 2) (VRef 4) ["c"; "b"] (VRef 7) "a");
      [reflexivity | exact prog_call_chain | reflexivity | reflexivity | done].
  - intros fuel Hfuel.
    apply (General prog_call (VRef 4) (VRef 4) ["c"; "b"] (VRef 7) "a");
      [reflexivity | exact prog_call_chain | reflexivity | reflexivity | done].
Qed.

(** The general statement applied to the call [a.b.c(x)]. *)
Lemma getFullItemName_dotted_chain_witness :
  tree.getFullItemName 3 prog_call (VRef 2) = Ok (VStr "a.b.c").
Proof.
  apply (proj2 (proj2 getFullItemName_dotted_chain)
           prog_call (VRef 2) (VRef 4) ["c"; "b"] (VRef 7) "a" 3).
  - reflexivity.
  - exact prog_call_chain.
  - reflexivity.
  - reflexivity.
  - simpl. lia.
Defined.

(** Its chain: the literal [0] has no [name], so the segment is
    [undefined], whatever the flag. *)
Lemma prog_computed_chain c :
  member_chain (prog_computed_flag c) (VRef 4) [VStr "b"; VUndef] (VRef 7).
Proof.
  destruct c.
  - eapply (chain_member _ _ (VRef 6)); [reflexivity.. |].
    eapply (chain_member _ _ (VRef 8)); [reflexivity.. |].
    by eapply (chain_end _ _ (VStr "Identifier")).
  - eapply (chain_member _ _ (VRef 6)); [reflexivity.. |].
    eapply (chain_member _ _ (VRef 8)); [reflexivity.. |].
    by eapply (chain_end _ _ (VStr "Identifier")).
Qed.

(** C7. [getFullItemName] reads [property.name] of every member expression
    of the chain, whatever its [computed] flag and whatever the kind of the
    property node.  When every such read gives a string or [undefined] (the
    property is a node without a [name]), the function does not fail: it
    returns a string, in which an [undefined] name contributes an empty
    segment at its position.  On [a[0].b(x)] the result is ["a..b"], with
    the flag of [a[0]] set or not. *)
Theorem getFullItemName_computed_segment :
  (∀ h func f segs base fuel,
     unwrap_call h func = Ok f →
     member_chain h f segs base →
     Forall (λ v, is_name v = true) (segs ++ base_names h base) →
     length segs < fuel →
     tree.getFullItemName fuel h func
     = Ok (VStr (String.concat "."
                   (reverse (seg_text <$> segs ++ base_names h base)))))
  ∧ seg_text VUndef = ""
  ∧ (∀ c fuel, 2 < fuel →
       tree.getFullItemName fuel (prog_computed_flag c) (VRef 2)
       = Ok (VStr "a..b")).
Proof.
  split_and!; [exact getFullItemName_names | done |].
  intros c fuel Hfuel.
  assert (unwrap_call (prog_computed_flag c) (VRef 2) = Ok (VRef 4)) as Hf
    by (destruct c; reflexivity).
  rewrite (getFullItemName_names _ _ _ _ _ _ Hf (prog_computed_chain c)).
  - destruct c; reflexivity.
  - destruct c; repeat constructor.
  - done.
Qed.

(** The general statement applied to [a[0].b(x)] as parsed, where [a[0]] is
    a computed access. *)
Lemma getFullItemName_computed_segment_witness :
  tree.getFullItemName 3 prog_computed (VRef 2) = Ok (VStr "a..b").
Proof.
  apply (proj1 getFullItemName_computed_segment
           prog_computed (VRef 2) (VRef 4) [VStr "b"; VUndef] (VRef 7) 3).
  - reflexivity.
  - exact (prog_computed_chain true).
  - by repeat constructor.
  - simpl. lia.
Defined.

(** ** [getPartialItemName] *)

(** C4. [getPartialItemName] gives [".c"] on the call expression of
    [a.b.c()] and ["f"] on the call [f()].  In general it unwraps one
    [CallExpression] layer, notes whether the node [f] so obtained is a
    [MemberExpression], and resolves [f] with [getIdentifier]: when that
    returns [null] the result is [undefined], and when it returns an
    identifier named [s] the result is [s], prefixed with ['.'] exactly when
    [f] is a member expression. *)
Theorem getPartialItemName_last_segment :
  tree.getPartialItemName prog_call (VRef 2) = Ok (VStr ".c")
  ∧ tree.getPartialItemName prog_bare (VRef 2) = Ok (VStr "f")
  ∧ (∀ h func f,
       unwrap_call h func = Ok f →
       (tree.getIdentifier h f = Ok VNull →
        tree.getPartialItemName h func = Ok VUndef)
       ∧ (∀ id s,
            tree.getIdentifier h f = Ok id → id ≠ VNull →
            get h id "name" = Ok (VStr s) →
            ∃ ty, get h f "type" = Ok ty
                  ∧ tree.getPartialItemName h func
                    = Ok (VStr ((if strict_eq ty (VStr "MemberExpression")
                                 then "." else "") +:+ s)))).
Proof.
  split_and!; [reflexivity | reflexivity |].
  intros h func f Hf. unfold tree.getPartialItemName.
  unfold unwrap_call in Hf. apply bind_inv in Hf as (ty0 & -> & Hf).
  run. rewrite Hf. run. split.
  - intros Hid.
    assert (∃ ty, get h f "type" = Ok ty) as (ty & ->).
    { unfold tree.getIdentifier in Hid.
      apply bind_inv in Hid as (ty & Hty & _). eauto. }
    run. rewrite Hid. by run.
  - intros id s Hid Hnn Hname.
    assert (∃ ty, get h f "type" = Ok ty) as (ty & Hty).
    { unfold tree.getIdentifier in Hid.
      apply bind_inv in Hid as (ty & Hty & _). eauto. }
    exists ty. split; [done |]. rewrite Hty. run. rewrite Hid. run.
    destruct (getIdentifier_result _ _ _ Hid) as [-> | Hidty]; [done |].
    destruct (get_type_str _ _ _ Hidty) as (l & fields & -> & _).
    simpl to_boolean. cbn [negb]. rewrite Hname. run.
    unfold str_add. by run.
Qed.

(** The general statement applied to the two calls: [a.b.c(x)], whose callee
    is a member expression, and [f()], whose callee is not. *)
Lemma getPartialItemName_last_segment_witness :
  (∃ ty, get prog_call (VRef 4) "type" = Ok ty
         ∧ tree.getPartialItemName prog_call (VRef 2)
           = Ok (VStr ((if strict_eq ty (VStr "MemberExpression")
                        then "." else "") +:+ "c")))
  ∧ (∃ ty, get prog_bare (VRef 4) "type" = Ok ty
           ∧ tree.getPartialItemName prog_bare (VRef 2)
             = Ok (VStr ((if strict_eq ty (VStr "MemberExpression")
                          then "." else "") +:+ "f")))
  ∧ tree.getPartialItemName prog_call (VRef 1) = Ok VUndef.
Proof.
  split_and!.
  - apply (proj2 (proj2 (proj2 getPartialItemName_last_segment)
                    prog_call (VRef 2) (VRef 4) eq_refl) (VRef 6) "c");
      [reflexivity | discriminate | reflexivity].
  - apply (proj2 (proj2 (proj2 getPartialItemName_last_segment)
                    prog_bare (VRef 2) (VRef 4) eq_refl) (VRef 4) "f");
      [reflexivity | discriminate | reflexivity].
  - apply (proj1 (proj2 (proj2 getPartialItemName_last_segment)
                    prog_call (VRef 1) (VRef 1) eq_refl)).
    reflexivity.
Defined.

(** ** [isParameter] *)

(** The flag a [forEach] callback raises when it meets [node]. *)
Lemma forEach_flag (node : value) (elems : list value) : ∀ acc,
  fold_left (λ (s : bool) a, if strict_eq a node then true else s) elems acc
  = acc || bool_decide (node ∈ elems).
Proof.
  induction elems as [| a elems IH]; intros acc; simpl.
  - by rewrite orb_false_r.
  - rewrite IH. unfold strict_eq.
    destruct (decide (a = node)) as [-> | Hne].
    + rewrite bool_decide_eq_true_2 by done.
      rewrite (bool_decide_eq_true_2 (node ∈ node :: elems))
        by apply list_elem_of_here.
      by rewrite orb_true_r.
    + rewrite bool_decide_eq_false_2 by done.
      f_equal. apply bool_decide_ext. rewrite elem_of_cons.
      intuition congruence.
Qed.

Lemma forEach_array {S} h l elems (cb : value → S → S) s :
  h !! l = Some (OArr elems) →
  forEach h (VRef l) cb s = Ok (fold_left (λ s a, cb a s) elems s).
Proof. intros Hl. simpl. by rewrite Hl. Qed.

Ltac dispatch Hl Hty :=
  unfold tree.isParameter; reads Hl; rewrite Hty; run.

(** C3. [isParameter(node, expr)], for a container [expr] stored at [l] with
    fields [fields], by the container's [type]: for a [CallExpression],
    whether [node] is identical to an element of [arguments] (so a distinct
    node with the same content as the only argument gives [false]); for an
    [AssignmentExpression], whether it is [right]; for a
    [VariableDeclarator], whether it is [init]; for a [Property], whether it
    is [value]; for an [ArrayExpression], whether it is identical to an
    element of [elements]; for a [FunctionExpression], [false]; for a
    [ConditionalExpression], whether it is [consequent] or [alternate]; for
    an [ArrowFunctionExpression], whether it is [body]; for every other
    type, [true]. *)
Theorem isParameter_dispatch (h : heap) (l : nat)
    (fields : gmap string value) :
  h !! l = Some (OObj fields) →
  (fld fields "type" = VStr "CallExpression" →
   ∀ la args, fld fields "arguments" = VRef la → h !! la = Some (OArr args) →
     (∀ node, tree.isParameter h node (VRef l)
              = Ok (bool_decide (node ∈ args)))
     ∧ (∀ l1 l2, args = [VRef l1] → l2 ≠ l1 → h !! l2 = h !! l1 →
          tree.isParameter h (VRef l2) (VRef l) = Ok false))
  ∧ (fld fields "type" = VStr "AssignmentExpression" →
     ∀ node, tree.isParameter h node (VRef l)
             = Ok (bool_decide (node = fld fields "right")))
  ∧ (fld fields "type" = VStr "VariableDeclarator" →
     ∀ node, tree.isParameter h node (VRef l)
             = Ok (bool_decide (node = fld fields "init")))
  ∧ (fld fields "type" = VStr "Property" →
     ∀ node, tree.isParameter h node (VRef l)
             = Ok (bool_decide (node = fld fields "value")))
  ∧ (fld fields "type" = VStr "ArrayExpression" →
     ∀ la elems, fld fields "elements" = VRef la →
       h !! la = Some (OArr elems) →
       ∀ node, tree.isParameter h node (VRef l)
               = Ok (bool_decide (node ∈ elems)))
  ∧ (fld fields "type" = VStr "FunctionExpression" →
     ∀ node, tree.isParameter h node (VRef l) = Ok false)
  ∧ (fld fields "type" = VStr "ConditionalExpression" →
     ∀ node, tree.isParameter h node (VRef l)
             = Ok (bool_decide (node = fld fields "consequent"
                                ∨ node = fld fields "alternate")))
  ∧ (fld fields "type" = VStr "ArrowFunctionExpression" →
     ∀ node, tree.isParameter h node (VRef l)
             = Ok (bool_decide (node = fld fields "body")))
  ∧ ((∀ t, t ∈ known_containers → fld fields "type" ≠ VStr t) →
     ∀ node, tree.isParameter h node (VRef l) = Ok true).
Proof.
  intros Hl.
  assert (∀ a b : value, strict_eq a b = bool_decide (b = a)) as Hsym.
  { intros a b. unfold strict_eq. apply bool_decide_ext. split; congruence. }
  split_and!.
  - intros Hty la args Ha Hla.
    assert (∀ node, tree.isParameter h node (VRef l)
                    = Ok (bool_decide (node ∈ args))) as Hcall.
    { intros node. dispatch Hl Hty. rewrite Ha.
      rewrite (forEach_array _ _ _ _ _ Hla). by rewrite forEach_flag. }
    split; [done |]. intros l1 l2 -> Hne _. rewrite Hcall. f_equal.
    apply bool_decide_eq_false_2. rewrite list_elem_of_singleton. congruence.
  - intros Hty node. dispatch Hl Hty. by rewrite Hsym.
  - intros Hty node. dispatch Hl Hty. by rewrite Hsym.
  - intros Hty node. dispatch Hl Hty. by rewrite Hsym.
  - intros Hty la elems Ha Hla node. dispatch Hl Hty. rewrite Ha.
    rewrite (forEach_array _ _ _ _ _ Hla). by rewrite forEach_flag.
  - intros Hty node. by dispatch Hl Hty.
  - intros Hty node. dispatch Hl Hty. unfold strict_eq.
    destruct (decide (node = fld fields "alternate")) as [E | E].
    + rewrite bool_decide_eq_true_2 by done.
      by rewrite bool_decide_eq_true_2 by by right.
    + rewrite bool_decide_eq_false_2 by done. run. f_equal.
      apply bool_decide_ext. intuition congruence.
  - intros Hty node. by dispatch Hl Hty.
  - intros Hother node. unfold tree.isParameter. reads Hl. run.
    repeat match goal with
    | |- context [strict_eq (fld fields "type") (VStr ?t)] =>
        rewrite (proj2 (strict_eq_false (fld fields "type") (VStr t)))
          by (apply Hother; unfold known_containers; set_solver)
    end.
    done.
Qed.

(** On [x(x)]: the argument [x] is a parameter of the call; the callee [x],
    a distinct node with the same fields, is not. *)
Lemma isParameter_dispatch_witness :
  tree.isParameter prog_same (VRef 10) (VRef 2) = Ok true
  ∧ tree.isParameter prog_same (VRef 4) (VRef 2) = Ok false.
Proof.
  pose proof (proj1 (isParameter_dispatch prog_same 2 _ eq_refl)
                eq_refl 3 [VRef 10] eq_refl eq_refl) as [Hin Hdistinct].
  split.
  - exact (Hin (VRef 10)).
  - apply (Hdistinct 10 4); [reflexivity | discriminate | reflexivity].
Defined.

(** ** [getParentFunctionIdentifier] *)

(** The loop's condition on a truthy value whose [type] is [ty]. *)
Lemma loop_condition h v ty :
  to_boolean v = true → get h v "type" = Ok ty →
  (Ok (to_boolean v)
   &&& (ty ← get h v "type"; Ok (strict_neq ty (VStr "FunctionExpression")))
   &&& (ty ← get h v "type"; Ok (strict_neq ty (VStr "FunctionDeclaration")))
   &&& (ty ← get h v "type";
        Ok (strict_neq ty (VStr "ArrowFunctionExpression"))))
  = Ok (negb (is_function_type ty)).
Proof.
  intros -> ->. unfold and_then, is_function_type, strict_neq. run.
  by repeat (destruct (strict_eq ty _); run).
Qed.

Lemma function_type_truthy h v ty :
  get h v "type" = Ok ty → is_function_type ty = true → to_boolean v = true.
Proof.
  intros Hty Hf. destruct v as [| | b | s | l]; simpl in *; try done.
  - by injection Hty as <-.
  - by injection Hty as <-.
Qed.

(** The loop finds the closest function, given fuel for every link. *)
Lemma closest_function_found h node d f :
  closest h node d f →
  ∀ fuel, d < fuel → tree.closest_function fuel h node = Ok f.
Proof.
  induction 1 as [v ty Hty Hf | v ty p d f Hv Hty Hf Hp _ IH];
    intros fuel Hfuel; (destruct fuel as [| fuel]; [lia |]);
    cbn [tree.closest_function].
  - rewrite (loop_condition _ _ _ (function_type_truthy _ _ _ Hty Hf) Hty).
    rewrite Hf. by run.
  - rewrite (loop_condition _ _ _ Hv Hty), Hf. run. rewrite Hp. run.
    apply IH. lia.
Qed.

(** The loop leaves through the root with a [null] or [undefined] value. *)
Lemma closest_function_off_root h node d :
  off_root h node d →
  ∀ fuel, d < fuel →
    ∃ v, is_nullish v = true ∧ tree.closest_function fuel h node = Ok v.
Proof.
  induction 1 as [v Hv | v ty p d Hv Hty Hf Hp _ IH];
    intros fuel Hfuel; (destruct fuel as [| fuel]; [lia |]);
    cbn [tree.closest_function].
  - exists v. split; [done |]. by destruct v.
  - rewrite (loop_condition _ _ _ Hv Hty), Hf. run. rewrite Hp. run.
    apply IH. lia.
Qed.

Lemma closest_is_function h node d f :
  closest h node d f →
  ∃ ty, get h f "type" = Ok ty ∧ is_function_type ty = true.
Proof. induction 1; eauto. Qed.

Lemma is_function_type_str ty :
  is_function_type ty = true → ∃ t, ty = VStr t.
Proof.
  unfold is_function_type. intros H.
  repeat (apply orb_prop in H as [H | H]);
    apply strict_eq_true in H; eauto.
Qed.

(** On a well-formed tree, the code after the loop computes the name of the
    function node as worded above. *)
Lemma function_identifier_enclosing h f ty :
  estree h →
  get h f "type" = Ok ty → is_function_type ty = true →
  tree.function_identifier h f = Ok (enclosing_name h f).
Proof.
  intros Hwf Hty Hfun.
  destruct (is_function_type_str _ Hfun) as (t & ->).
  destruct (get_type_str _ _ _ Hty) as (l & fields & -> & Hl & _).
  unfold tree.function_identifier, enclosing_name, field, has_type.
  reads Hl. run. destruct (to_boolean (fld fields "id")); [done |].
  pose proof (estree_node_inv _ _ (estree_lookup _ Hwf _ _ Hl))
    as (_ & Hparent & _).
  unfold and_then.
  destruct Hparent as [Hnull | Hnode].
  - by destruct (fld fields "parent").
  - destruct (is_node_inv _ _ Hnode) as (lp & pfields & -> & Hlp).
    reads Hlp. run.
    destruct (strict_eq (fld pfields "type") (VStr "VariableDeclarator"));
      [done |].
    run.
    by destruct (strict_eq (fld pfields "type") (VStr "AssignmentExpression")).
Qed.

(** The walks of the sample programs. *)
Lemma prog_call_off_root : off_root prog_call (VRef 10) 4.
Proof.
  eapply (off_root_up _ _ _ (VRef 2)); [reflexivity.. |].
  eapply (off_root_up _ _ _ (VRef 1)); [reflexivity.. |].
  eapply (off_root_up _ _ _ (VRef 0)); [reflexivity.. |].
  eapply (off_root_up _ _ _ VNull); [reflexivity.. |].
  by apply off_root_here.
Qed.

Lemma prog_decl_closest : closest prog_decl (VRef 5) 3 (VRef 1).
Proof.
  eapply (closest_up _ _ _ (VRef 4)); [reflexivity.. |].
  eapply (closest_up _ _ _ (VRef 3)); [reflexivity.. |].
  eapply (closest_up _ _ _ (VRef 1)); [reflexivity.. |].
  eapply closest_here; reflexivity.
Qed.

Lemma prog_var_closest : closest prog_var (VRef 7) 3 (VRef 4).
Proof.
  eapply (closest_up _ _ _ (VRef 6)); [reflexivity.. |].
  eapply (closest_up _ _ _ (VRef 5)); [reflexivity.. |].
  eapply (closest_up _ _ _ (VRef 4)); [reflexivity.. |].
  eapply closest_here; reflexivity.
Qed.

Lemma prog_assign_closest : closest prog_assign (VRef 7) 3 (VRef 4).
Proof.
  eapply (closest_up _ _ _ (VRef 6)); [reflexivity.. |].
  eapply (closest_up _ _ _ (VRef 5)); [reflexivity.. |].
  eapply (closest_up _ _ _ (VRef 4)); [reflexivity.. |].
  eapply closest_here; reflexivity.
Qed.

(** C1. When the chain of [parent] links from [node] holds no function-like
    node and runs off the root, [getParentFunctionIdentifier] does not
    return [null]: the loop leaves with [null] or [undefined] in [func], and
    the read of [func.id] that follows raises a [TypeError]. *)
Theorem getParentFunctionIdentifier_off_root_throws
    (h : heap) (node : value) (d fuel : nat) :
  off_root h node d →
  d < fuel →
  tree.getParentFunctionIdentifier fuel h node = Err TypeError.
Proof.
  intros Hoff Hfuel. unfold tree.getParentFunctionIdentifier.
  destruct (closest_function_off_root _ _ _ Hoff _ Hfuel) as (v & Hv & ->).
  run. by destruct v.
Qed.

(** The identifier [x] of the top-level statement [a.b.c(x);]. *)
Lemma getParentFunctionIdentifier_off_root_throws_witness :
  tree.getParentFunctionIdentifier 5 prog_call (VRef 10) = Err TypeError.
Proof.
  apply (getParentFunctionIdentifier_off_root_throws
           prog_call (VRef 10) 4 5 prog_call_off_root).
  lia.
Defined.

(** C5. When the walk from [node] finds the function-like node [f] of a
    well-formed tree, [getParentFunctionIdentifier] returns the [id] of [f]
    if [f] has one; otherwise the [id] of the parent of [f] when that is a
    [VariableDeclarator], the [left] of the parent when that is an
    [AssignmentExpression], and [null] in every other case. *)
Theorem getParentFunctionIdentifier_names_function
    (h : heap) (node f : value) (d fuel : nat) :
  estree h →
  closest h node d f →
  d < fuel →
  (to_boolean (field h f "id") = true →
   tree.getParentFunctionIdentifier fuel h node = Ok (field h f "id"))
  ∧ (to_boolean (field h f "id") = false →
     (has_type h (field h f "parent") "VariableDeclarator" = true →
      tree.getParentFunctionIdentifier fuel h node
      = Ok (field h (field h f "parent") "id"))
     ∧ (has_type h (field h f "parent") "AssignmentExpression" = true →
        tree.getParentFunctionIdentifier fuel h node
        = Ok (field h (field h f "parent") "left"))
     ∧ (has_type h (field h f "parent") "VariableDeclarator" = false →
        has_type h (field h f "parent") "AssignmentExpression" = false →
        tree.getParentFunctionIdentifier fuel h node = Ok VNull)).
Proof.
  intros Hwf Hcl Hfuel.
  destruct (closest_is_function _ _ _ _ Hcl) as (ty & Hty & Hfun).
  assert (tree.getParentFunctionIdentifier fuel h node
          = Ok (enclosing_name h f)) as ->.
  { unfold tree.getParentFunctionIdentifier.
    rewrite (closest_function_found _ _ _ _ Hcl) by done. run.
    by eapply function_identifier_enclosing. }
  unfold enclosing_name. split.
  - by intros ->.
  - intros ->. split_and!.
    + by intros ->.
    + intros HA. rewrite HA.
      destruct (has_type h (field h f "parent") "VariableDeclarator") eqn:HV;
        [| done].
      unfold has_type in *. destruct (get h (field h f "parent") "type");
        [| done].
      apply strict_eq_true in HA, HV. congruence.
    + by intros -> ->.
Qed.

(** [function foo() { return x; }] names [foo], and
    [var bar = function () { return x; }] names [bar]. *)
Lemma getParentFunctionIdentifier_names_function_witness :
  (tree.getParentFunctionIdentifier 4 prog_decl (VRef 5) = Ok (VRef 2)
   ∧ get prog_decl (VRef 2) "name" = Ok (VStr "foo"))
  ∧ (tree.getParentFunctionIdentifier 4 prog_var (VRef 7) = Ok (VRef 3)
     ∧ get prog_var (VRef 3) "name" = Ok (VStr "bar")).
Proof.
  split; (split; [| reflexivity]).
  - apply (proj1 (getParentFunctionIdentifier_names_function
                    prog_decl (VRef 5) (VRef 1) 3 4
                    estree_prog_decl prog_decl_closest ltac:(lia))).
    reflexivity.
  - apply (proj1 (proj2 (getParentFunctionIdentifier_names_function
                    prog_var (VRef 7) (VRef 4) 3 4
                    estree_prog_var prog_var_closest ltac:(lia))
                  eq_refl)).
    reflexivity.
Defined.

(** What the loop returns: a falsy value it stopped at, or the closest
    function. *)
Lemma closest_function_inv h fuel : ∀ node func,
  tree.closest_function fuel h node = Ok func →
  to_boolean func = false ∨ ∃ d, closest h node d func ∧ d < fuel.
Proof.
  induction fuel as [| fuel IH]; intros node func Hloop; [done |].
  cbn [tree.closest_function] in Hloop.
  pose proof (loop_condition h node) as Hcond.
  destruct (to_boolean node) eqn:Hnode.
  - destruct (get h node "type") as [ty | e] eqn:Hty.
    + rewrite (Hcond ty eq_refl eq_refl), bind_Ok in Hloop.
      destruct (is_function_type ty) eqn:Hfun; simpl in Hloop.
      * injection Hloop as <-. right. exists 0. split; [| lia].
        by eapply closest_here.
      * apply bind_inv in Hloop as (p & Hp & Hloop).
        destruct (IH _ _ Hloop) as [Hfalsy | (d & Hcl & Hd)]; [by left |].
        right. exists (S d). split; [| lia]. by eapply closest_up.
    + done.
  - unfold and_then in Hloop. simpl in Hloop.
    injection Hloop as <-. by left.
Qed.

(** What the code after the loop returns is the name worded above. *)
Lemma function_identifier_inv h f v :
  tree.function_identifier h f = Ok v → v = enclosing_name h f.
Proof.
  unfold tree.function_identifier, enclosing_name, field, has_type, and_then.
  intros (id & Hid & H)%bind_inv. rewrite Hid.
  destruct (to_boolean id); [congruence |].
  apply bind_inv in H as (parent & -> & H).
  destruct (to_boolean parent) eqn:Hparent.
  - destruct (get h parent "type") as [ty | e]; simpl in H; [| discriminate].
    destruct (strict_eq ty (VStr "VariableDeclarator")); simpl in H.
    + destruct (get h parent "id"); congruence.
    + destruct (strict_eq ty (VStr "AssignmentExpression")); simpl in H.
      * destruct (get h parent "left"); congruence.
      * congruence.
  - destruct parent as [| | [|] | s |]; try discriminate; simpl in *;
      congruence.
Qed.

(** After a falsy value the code can only return [null]. *)
Lemma function_identifier_falsy h func v :
  to_boolean func = false →
  tree.function_identifier h func = Ok v → v = VNull.
Proof.
  intros Hfalsy H. unfold tree.function_identifier in H.
  destruct func as [| | [|] | s |]; try discriminate;
    cbn in H; congruence.
Qed.

Lemma prog_assign_result :
  tree.getParentFunctionIdentifier 4 prog_assign (VRef 7) = Ok (VRef 3).
Proof.
  unfold tree.getParentFunctionIdentifier.
  rewrite (closest_function_found _ _ _ _ prog_assign_closest) by lia.
  reflexivity.
Qed.

(** C6, as stated, fails.  [a.b = function () { return x; };] is a
    well-formed tree, and for the identifier [x] in it
    [getParentFunctionIdentifier] returns the left side of the assignment:
    the node of [a.b], which is not [null] and whose [type] is
    ['MemberExpression'], not ['Identifier']. *)
Lemma getParentFunctionIdentifier_returns_member :
  (estree prog_assign
   ∧ tree.getParentFunctionIdentifier 4 prog_assign (VRef 7) = Ok (VRef 3)
   ∧ VRef 3 ≠ VNull
   ∧ get prog_assign (VRef 3) "type" = Ok (VStr "MemberExpression"))
  ∧ ¬ returns_identifier_or_null.
Proof.
  split.
  - split_and!; [exact estree_prog_assign | exact prog_assign_result
                 | discriminate | reflexivity].
  - intros Hclaim.
    pose proof (Hclaim prog_assign (VRef 7) 4 (VRef 3) estree_prog_assign
                  prog_assign_result ltac:(discriminate)) as Hty.
    discriminate Hty.
Qed.

(** C6, amended.  Every non-null value [getParentFunctionIdentifier]
    returns is the node that names the closest function, handed back as it
    is: the function's own [id], else the [id] of its parent declarator,
    else the [left] of its parent assignment.  It is therefore an
    [Identifier] node whenever the functions of the tree are named by
    identifiers -- the case of an assignment whose [left] is an identifier
    included. *)
Theorem getParentFunctionIdentifier_returns_naming_node
    (h : heap) (node : value) (fuel : nat) (v : value) :
  tree.getParentFunctionIdentifier fuel h node = Ok v →
  v ≠ VNull →
  (∃ f d, closest h node d f ∧ d < fuel ∧ v = enclosing_name h f)
  ∧ (identifier_named h → get h v "type" = Ok (VStr "Identifier")).
Proof.
  intros Hres Hnn. unfold tree.getParentFunctionIdentifier in Hres.
  apply bind_inv in Hres as (func & Hloop & Hres).
  destruct (closest_function_inv _ _ _ _ Hloop) as [Hfalsy | (d & Hcl & Hd)].
  { by pose proof (function_identifier_falsy _ _ _ Hfalsy Hres). }
  pose proof (function_identifier_inv _ _ _ Hres) as Hv.
  split; [by exists func, d |].
  intros Hnamed.
  destruct (closest_is_function _ _ _ _ Hcl) as (ty & Hty & Hfun).
  destruct (is_function_type_str _ Hfun) as (t & ->).
  destruct (get_type_str _ _ _ Hty) as (l & fields & -> & Hl & Hf).
  pose proof (map_Forall_lookup_1 _ _ _ _ Hnamed Hl) as Hok.
  unfold named_ok, fld in Hok. rewrite Hf in Hok. simpl default in Hok.
  rewrite Hfun, <- Hv in Hok.
  apply orb_prop in Hok as [Hnull | Hident].
  - by apply strict_eq_true in Hnull.
  - unfold has_type in Hident.
    destruct (get h v "type") as [ty |]; [| done].
    by apply strict_eq_true in Hident as ->.
Qed.

Lemma identifier_named_prog_var : identifier_named prog_var.
Proof.
  apply (bool_decide_unpack (identifier_named prog_var)). by vm_compute.
Qed.

(** In [var bar = function () { return x; };] the value returned for [x]
    names the function expression and is the identifier [bar]. *)
Lemma getParentFunctionIdentifier_returns_naming_node_witness :
  (∃ f d, closest prog_var (VRef 7) d f ∧ d < 4
          ∧ VRef 3 = enclosing_name prog_var f)
  ∧ get prog_var (VRef 3) "type" = Ok (VStr "Identifier").
Proof.
  pose proof (getParentFunctionIdentifier_returns_naming_node
                prog_var (VRef 7) 4 (VRef 3) eq_refl ltac:(discriminate))
    as [Horigin Hident].
  split; [exact Horigin | exact (Hident identifier_named_prog_var)].
Defined.

(** C10. The loop tests the node it starts from before it follows any
    [parent] link: when [node] itself is a [FunctionExpression], a
    [FunctionDeclaration] or an [ArrowFunctionExpression], the function the
    loop selects is [node], and the result is computed from [node]'s own
    [id] and [node]'s own parent -- on a well-formed tree, the name of
    [node] as worded above. *)
Theorem getParentFunctionIdentifier_starts_at_node
    (h : heap) (node ty : value) (fuel : nat) :
  get h node "type" = Ok ty →
  is_function_type ty = true →
  0 < fuel →
  tree.closest_function fuel h node = Ok node
  ∧ tree.getParentFunctionIdentifier fuel h node
    = tree.function_identifier h node
  ∧ (estree h →
     tree.getParentFunctionIdentifier fuel h node
     = Ok (enclosing_name h node)).
Proof.
  intros Hty Hfun Hfuel.
  pose proof (closest_function_found _ _ _ _ (closest_here _ _ _ Hty Hfun)
                _ Hfuel) as Hloop.
  unfold tree.getParentFunctionIdentifier. rewrite Hloop. run.
  split_and!; [done | done |].
  intros Hwf. by eapply function_identifier_enclosing.
Qed.

(** In [function outer() { var inner = function () {}; }], started at the
    inner function expression, the result is [inner], not [outer]. *)
Lemma getParentFunctionIdentifier_starts_at_node_witness :
  tree.closest_function 1 prog_nested (VRef 7) = Ok (VRef 7)
  ∧ tree.getParentFunctionIdentifier 1 prog_nested (VRef 7) = Ok (VRef 6)
  ∧ get prog_nested (VRef 6) "name" = Ok (VStr "inner").
Proof.
  pose proof (getParentFunctionIdentifier_starts_at_node
                prog_nested (VRef 7) (VStr "FunctionExpression") 1
                eq_refl eq_refl ltac:(lia)) as (Hloop & _ & Hname).
  split_and!.
  - exact Hloop.
  - exact (Hname estree_prog_nested).
  - reflexivity.
Defined.

(** * Further properties of the helpers *)

(** ** Resolving names through calls *)

Lemma getIdentifier_Identifier h n :
  get h n "type" = Ok (VStr "Identifier") → tree.getIdentifier h n = Ok n.
Proof.
  intros Hty.
  rewrite (getIdentifier_unwrapped h n n n (VStr "Identifier")); try done.
  - by eapply unwrap_call_other.
  - by eapply unwrap_member_other.
Qed.

Lemma unwrap_call_callee h c k :
  get h c "type" = Ok (VStr "CallExpression") →
  get h c "callee" = Ok k →
  unwrap_call h c = Ok k.
Proof. intros Hc Hk. unfold unwrap_call. rewrite Hc. by run. Qed.

(** Decide the comparisons of a type [ty] known to differ from the tag. *)
Ltac differs :=
  repeat match goal with
  | H : ?ty ≠ VStr ?t |- context [strict_eq ?ty (VStr ?t)] =>
      rewrite (proj2 (strict_eq_false ty (VStr t)) H)
  end.

(** Run the code on the reads the hypotheses give. *)
Ltac exec :=
  repeat (run; differs;
          try match goal with
              | H : get _ _ _ = Ok _ |- _ => rewrite H
              end).

(** X1. [getIdentifier] is idempotent where it resolves: the identifier it
    returns resolves to itself. *)
Theorem getIdentifier_idempotent (h : heap) (node id : value) :
  tree.getIdentifier h node = Ok id →
  id ≠ VNull →
  tree.getIdentifier h id = Ok id.
Proof.
  intros Hid Hnn.
  destruct (getIdentifier_result _ _ _ Hid) as [-> | Hty]; [done |].
  by apply getIdentifier_Identifier.
Qed.

Lemma getIdentifier_idempotent_witness :
  tree.getIdentifier prog_call (VRef 6) = Ok (VRef 6).
Proof.
  apply (getIdentifier_idempotent prog_call (VRef 2) (VRef 6));
    [reflexivity | discriminate].
Defined.

(** X2. The four name helpers see through one call: on a call whose callee is
    not itself a call they give what they give on the callee -- for
    [getNodeName], unless the callee is [this]. *)
Theorem call_transparent (h : heap) (c k ty : value) :
  get h c "type" = Ok (VStr "CallExpression") →
  get h c "callee" = Ok k →
  get h k "type" = Ok ty →
  ty ≠ VStr "CallExpression" →
  tree.getIdentifier h c = tree.getIdentifier h k
  ∧ (ty ≠ VStr "ThisExpression" →
     tree.getNodeName h c = tree.getNodeName h k)
  ∧ (∀ fuel, tree.getFullItemName fuel h c = tree.getFullItemName fuel h k)
  ∧ tree.getPartialItemName h c = tree.getPartialItemName h k.
Proof.
  intros Hc Hk Hty Hne.
  assert (tree.getIdentifier h c = tree.getIdentifier h k) as Hid.
  { unfold tree.getIdentifier. by exec. }
  split_and!.
  - done.
  - intros Hthis. unfold tree.getNodeName. exec. by rewrite Hid.
  - intros fuel. unfold tree.getFullItemName. by exec.
  - unfold tree.getPartialItemName. by exec.
Qed.

Lemma call_transparent_witness :
  tree.getIdentifier prog_call (VRef 2) = tree.getIdentifier prog_call (VRef 4)
  ∧ tree.getPartialItemName prog_call (VRef 2)
    = tree.getPartialItemName prog_call (VRef 4).
Proof.
  pose proof (call_transparent prog_call (VRef 2) (VRef 4)
                (VStr "MemberExpression") eq_refl eq_refl eq_refl
                ltac:(discriminate)) as (Hid & _ & _ & Hpart).
  by split.
Defined.

(** X3. On a call of a call of an identifier, as in [f()()], the helpers
    disagree: [getPartialItemName] unwraps one call itself and a second one
    inside [getIdentifier], and gives the identifier's name; the other three
    unwrap one call only and find nothing to name. *)
Theorem double_call_names (h : heap) (c1 c2 f : value) (s : string) :
  get h c1 "type" = Ok (VStr "CallExpression") →
  get h c1 "callee" = Ok c2 →
  get h c2 "type" = Ok (VStr "CallExpression") →
  get h c2 "callee" = Ok f →
  get h f "type" = Ok (VStr "Identifier") →
  get h f "name" = Ok (VStr s) →
  tree.getPartialItemName h c1 = Ok (VStr s)
  ∧ tree.getIdentifier h c1 = Ok VNull
  ∧ tree.getNodeName h c1 = Ok (VStr "")
  ∧ (∀ fuel, 0 < fuel → tree.getFullItemName fuel h c1 = Ok (VStr "")).
Proof.
  intros Hc1 Hk1 Hc2 Hk2 Hf Hs.
  assert (tree.getIdentifier h c1 = Ok VNull) as Hid.
  { unfold tree.getIdentifier. by exec. }
  split_and!.
  - unfold tree.getPartialItemName. exec.
    rewrite (getIdentifier_unwrapped h c2 f f (VStr "Identifier"));
      [| by apply unwrap_call_callee | by eapply unwrap_member_other | done].
    rewrite strict_eq_refl, bind_Ok.
    destruct (get_type_str _ _ _ Hf) as (l & fields & -> & _).
    cbn [to_boolean negb]. rewrite Hs. by run.
  - done.
  - unfold tree.getNodeName. exec. rewrite Hid. by run.
  - intros fuel Hfuel. unfold tree.getFullItemName. exec.
    destruct fuel as [| fuel]; [lia |].
    cbn [tree.member_names]. by exec.
Qed.

Lemma double_call_names_witness :
  tree.getPartialItemName prog_double (VRef 2) = Ok (VStr "f")
  ∧ tree.getIdentifier prog_double (VRef 2) = Ok VNull.
Proof.
  pose proof (double_call_names prog_double (VRef 2) (VRef 4) (VRef 5) "f"
                eq_refl eq_refl eq_refl eq_refl eq_refl eq_refl)
    as (Hpart & Hid & _).
  by split.
Defined.

(** ** Where the name helpers agree and where they give up *)

Lemma type_str_truthy h v t :
  get h v "type" = Ok (VStr t) → to_boolean v = true.
Proof. by intros (l & fields & -> & _)%get_type_str. Qed.

(** X4. On an identifier with a string name the three name helpers agree: each
    returns that name, without a leading dot. *)
Theorem identifier_names_agree (h : heap) (n : value) (s : string) :
  get h n "type" = Ok (VStr "Identifier") →
  get h n "name" = Ok (VStr s) →
  tree.getNodeName h n = Ok (VStr s)
  ∧ (∀ fuel, 0 < fuel → tree.getFullItemName fuel h n = Ok (VStr s))
  ∧ tree.getPartialItemName h n = Ok (VStr s).
Proof.
  intros Hty Hs.
  pose proof (getIdentifier_Identifier _ _ Hty) as Hid.
  pose proof (type_str_truthy _ _ _ Hty) as Htrue.
  split_and!.
  - unfold tree.getNodeName. rewrite Hty. run. rewrite Hid. run.
    by rewrite Htrue.
  - intros fuel Hfuel.
    rewrite (getFullItemName_names h _ n [] n fuel).
    + by rewrite (base_names_identifier _ _ _ Hty Hs).
    + by eapply unwrap_call_other.
    + by eapply (chain_end _ _ (VStr "Identifier")).
    + rewrite (base_names_identifier _ _ _ Hty Hs). by repeat constructor.
    + done.
  - unfold tree.getPartialItemName. rewrite Hty. run. rewrite Hty. run.
    rewrite Hid. run. rewrite Htrue. run. rewrite Hs. by run.
Qed.

Lemma identifier_names_agree_witness :
  tree.getNodeName prog_call (VRef 10) = Ok (VStr "x")
  ∧ tree.getPartialItemName prog_call (VRef 10) = Ok (VStr "x").
Proof.
  pose proof (identifier_names_agree prog_call (VRef 10) "x" eq_refl eq_refl)
    as (Hname & _ & Hpart).
  by split.
Defined.

(** X5. On a value whose [type] is none of ['CallExpression'],
    ['MemberExpression'], ['Identifier'] and ['ThisExpression'], each helper
    gives its own sign of "no name": [getIdentifier] gives [null],
    [getNodeName] and [getFullItemName] the empty string, and
    [getPartialItemName] gives [undefined]. *)
Theorem unnamed_node_sentinels (h : heap) (n ty : value) :
  get h n "type" = Ok ty →
  ty ≠ VStr "CallExpression" →
  ty ≠ VStr "MemberExpression" →
  ty ≠ VStr "Identifier" →
  ty ≠ VStr "ThisExpression" →
  tree.getIdentifier h n = Ok VNull
  ∧ tree.getNodeName h n = Ok (VStr "")
  ∧ (∀ fuel, 0 < fuel → tree.getFullItemName fuel h n = Ok (VStr ""))
  ∧ tree.getPartialItemName h n = Ok VUndef.
Proof.
  intros Hty Hcall Hmem Hident Hthis.
  assert (tree.getIdentifier h n = Ok VNull) as Hid.
  { unfold tree.getIdentifier, strict_neq. by exec. }
  split_and!.
  - done.
  - unfold tree.getNodeName. exec. rewrite Hid. by run.
  - intros fuel Hfuel. unfold tree.getFullItemName. exec.
    destruct fuel as [| fuel]; [lia |]. cbn [tree.member_names]. by exec.
  - unfold tree.getPartialItemName. exec. rewrite Hid. by run.
Qed.

Lemma unnamed_node_sentinels_witness :
  tree.getIdentifier prog_call (VRef 1) = Ok VNull
  ∧ tree.getPartialItemName prog_call (VRef 1) = Ok VUndef.
Proof.
  pose proof (unnamed_node_sentinels prog_call (VRef 1)
                (VStr "ExpressionStatement") eq_refl
                ltac:(discriminate) ltac:(discriminate)
                ltac:(discriminate) ltac:(discriminate))
    as (Hid & _ & _ & Hpart).
  by split.
Defined.

Lemma base_names_other h base ty :
  get h base "type" = Ok ty → ty ≠ VStr "Identifier" →
  base_names h base = [].
Proof.
  intros Hty Hne. unfold base_names. rewrite Hty.
  destruct (get h base "name"); [| done]. by differs.
Qed.

(** X6. When the chain does not end in an identifier (it ends in [this], a call,
    a literal, ...), [getFullItemName] drops the base: the result holds the
    property names only, and is the empty string when there is none. *)
Theorem getFullItemName_base_dropped
    (h : heap) (func f base ty : value) (props : list string) (fuel : nat) :
  unwrap_call h func = Ok f →
  member_chain h f (VStr <$> props) base →
  get h base "type" = Ok ty →
  ty ≠ VStr "Identifier" →
  length props < fuel →
  tree.getFullItemName fuel h func
  = Ok (VStr (String.concat "." (reverse props))).
Proof.
  intros Hf Hch Hty Hne Hfuel.
  rewrite (getFullItemName_names _ _ _ _ _ _ Hf Hch);
    rewrite ?(base_names_other _ _ _ Hty Hne), ?app_nil_r.
  - by rewrite seg_text_VStr.
  - apply is_name_VStr.
  - by rewrite length_fmap.
Qed.

Lemma prog_this_chain : member_chain prog_this (VRef 2) [VStr "m"] (VRef 3).
Proof.
  eapply (chain_member _ _ (VRef 4)); [reflexivity.. |].
  by eapply (chain_end _ _ (VStr "ThisExpression")).
Qed.

(** [this.m] is named ["m"]. *)
Lemma getFullItemName_base_dropped_witness :
  tree.getFullItemName 2 prog_this (VRef 2) = Ok (VStr "m").
Proof.
  apply (getFullItemName_base_dropped prog_this (VRef 2) (VRef 2) (VRef 3)
           (VStr "ThisExpression") ["m"] 2 eq_refl prog_this_chain eq_refl);
    [discriminate | simpl; lia].
Defined.

(** ** Full names and partial names *)

Lemma concat_snoc (sep p : string) (l : list string) :
  l ≠ [] →
  String.concat sep (l ++ [p]) = String.concat sep l +:+ sep +:+ p.
Proof.
  induction l as [| x [| y l] IH]; intros Hne; [done | done |].
  change (x +:+ sep +:+ String.concat sep ((y :: l) ++ [p])
          = (x +:+ sep +:+ String.concat sep (y :: l)) +:+ sep +:+ p).
  rewrite IH by done. by rewrite !string_app_assoc.
Qed.

(** The partial name of a dotted access whose property is an
    identifier. *)
Lemma getPartialItemName_dotted h func f c property p :
  unwrap_call h func = Ok f →
  get h f "type" = Ok (VStr "MemberExpression") →
  get h f "computed" = Ok c → to_boolean c = false →
  get h f "property" = Ok property →
  get h property "type" = Ok (VStr "Identifier") →
  get h property "name" = Ok (VStr p) →
  tree.getPartialItemName h func = Ok (VStr ("." +:+ p)).
Proof.
  intros Hf Hty Hc Hfalse Hp Hpty Hpn.
  unfold tree.getPartialItemName.
  unfold unwrap_call in Hf. apply bind_inv in Hf as (ty0 & -> & Hf).
  run. rewrite Hf. run. rewrite Hty. run.
  rewrite (getIdentifier_unwrapped h f f property (VStr "Identifier")).
  - run. rewrite (type_str_truthy _ _ _ Hpty). run. rewrite Hpn. by run.
  - by eapply unwrap_call_other.
  - unfold unwrap_member. rewrite Hty. run. rewrite Hc. run.
    by rewrite Hfalse.
  - done.
Qed.

(** X7. A dotted name is its qualifier followed by its partial name: for the
    access [q.p] (or the call [q.p(...)]), where [p] is an identifier and
    the object [q] is a chain with at least one segment,
    [getFullItemName] gives the full name of [q] followed by what
    [getPartialItemName] gives, which is ['.'] and [p]. *)
Theorem full_name_is_qualifier_and_partial
    (h : heap) (func f c property object oty base : value) (p : string)
    (segs : list value) (fuel : nat) :
  unwrap_call h func = Ok f →
  get h f "type" = Ok (VStr "MemberExpression") →
  get h f "computed" = Ok c → to_boolean c = false →
  get h f "property" = Ok property →
  get h property "type" = Ok (VStr "Identifier") →
  get h property "name" = Ok (VStr p) →
  get h f "object" = Ok object →
  get h object "type" = Ok oty → oty ≠ VStr "CallExpression" →
  member_chain h object segs base →
  Forall (λ v, is_name v = true) (segs ++ base_names h base) →
  segs ++ base_names h base ≠ [] →
  length segs < fuel →
  ∃ q part,
    tree.getFullItemName fuel h object = Ok (VStr q)
    ∧ tree.getPartialItemName h func = Ok (VStr part)
    ∧ part = "." +:+ p
    ∧ tree.getFullItemName (S fuel) h func = Ok (VStr (q +:+ part)).
Proof.
  intros Hf Hty Hc Hfalse Hp Hpty Hpn Ho Hoty Hnocall Hch Hnames Hne Hfuel.
  exists (String.concat "." (reverse (seg_text <$> segs ++ base_names h base))),
         ("." +:+ p).
  split_and!.
  - apply (getFullItemName_names h object object segs base fuel); try done.
    by eapply unwrap_call_other.
  - by eapply getPartialItemName_dotted.
  - done.
  - rewrite (getFullItemName_names h func f (VStr p :: segs) base (S fuel));
      try done.
    + f_equal. f_equal.
      change (seg_text <$> (VStr p :: segs) ++ base_names h base)
        with (p :: (seg_text <$> segs ++ base_names h base)).
      rewrite reverse_cons. apply concat_snoc.
      intros Hnil. apply Hne.
      apply (f_equal reverse) in Hnil. rewrite reverse_involutive in Hnil.
      by apply fmap_nil_inv in Hnil.
    + by eapply chain_member.
    + by constructor.
    + simpl. lia.
Qed.

(** [a.b.c(x)] is ["a.b"] followed by [".c"]. *)
Lemma full_name_is_qualifier_and_partial_witness :
  ∃ q part,
    tree.getFullItemName 2 prog_call (VRef 5) = Ok (VStr q)
    ∧ tree.getPartialItemName prog_call (VRef 2) = Ok (VStr part)
    ∧ part = ".c"
    ∧ tree.getFullItemName 3 prog_call (VRef 2) = Ok (VStr (q +:+ part)).
Proof.
  apply (full_name_is_qualifier_and_partial
           prog_call (VRef 2) (VRef 4) (VBool false) (VRef 6) (VRef 5)
           (VStr "MemberExpression") (VRef 7) "c" [VStr "b"] 2);
    try reflexivity.
  - discriminate.
  - eapply (chain_member _ _ (VRef 8)); [reflexivity.. |].
    by eapply (chain_end _ _ (VStr "Identifier")).
  - by repeat constructor.
  - discriminate.
  - simpl. lia.
Defined.

(** X8. On a computed access [a[p]] whose object is an identifier, the partial
    name is taken from the object, not from the index: [getPartialItemName]
    gives ['.'] and the name of [a], while [getFullItemName] still ends in
    the [name] of the index [p]. *)
Theorem computed_access_names
    (h : heap) (func f c object property : value) (s p : string)
    (fuel : nat) :
  unwrap_call h func = Ok f →
  get h f "type" = Ok (VStr "MemberExpression") →
  get h f "computed" = Ok c → to_boolean c = true →
  get h f "object" = Ok object →
  get h object "type" = Ok (VStr "Identifier") →
  get h object "name" = Ok (VStr s) →
  get h f "property" = Ok property →
  get h property "name" = Ok (VStr p) →
  1 < fuel →
  tree.getPartialItemName h func = Ok (VStr ("." +:+ s))
  ∧ tree.getFullItemName fuel h func = Ok (VStr (s +:+ "." +:+ p)).
Proof.
  intros Hf Hty Hc Htrue Ho Hoty Hs Hp Hpn Hfuel. split.
  - unfold tree.getPartialItemName.
    unfold unwrap_call in Hf. apply bind_inv in Hf as (ty0 & -> & Hf).
    run. rewrite Hf. run. rewrite Hty. run.
    rewrite (getIdentifier_unwrapped h f f object (VStr "Identifier")).
    + run. rewrite (type_str_truthy _ _ _ Hoty). run. rewrite Hs. by run.
    + by eapply unwrap_call_other.
    + unfold unwrap_member. rewrite Hty. run. rewrite Hc. run.
      by rewrite Htrue.
    + done.
  - rewrite (getFullItemName_names h func f [VStr p] object fuel); try done.
    + by rewrite (base_names_identifier _ _ _ Hoty Hs).
    + eapply chain_member; try done.
      by eapply (chain_end _ _ (VStr "Identifier")).
    + rewrite (base_names_identifier _ _ _ Hoty Hs). by repeat constructor.
Qed.

(** [a[b]()] has the partial name [".a"] and the full name ["a.b"]. *)
Lemma computed_access_names_witness :
  tree.getPartialItemName prog_index (VRef 2) = Ok (VStr ".a")
  ∧ tree.getFullItemName 2 prog_index (VRef 2) = Ok (VStr "a.b").
Proof.
  apply (computed_access_names prog_index (VRef 2) (VRef 4) (VBool true)
           (VRef 5) (VRef 6) "a" "b" 2); try reflexivity.
  lia.
Defined.

(** X9. [getPartialItemName] in terms of [getNodeName]: when [getNodeName]
    finds a non-empty name for the call-unwrapped node, which is not
    [this], [getPartialItemName] returns that name, with a leading ['.']
    exactly for a member expression. *)
Theorem getPartialItemName_of_getNodeName
    (h : heap) (func f ty : value) (s : string) :
  unwrap_call h func = Ok f →
  get h f "type" = Ok ty →
  ty ≠ VStr "ThisExpression" →
  tree.getNodeName h f = Ok (VStr s) →
  s ≠ "" →
  tree.getPartialItemName h func
  = Ok (VStr ((if strict_eq ty (VStr "MemberExpression") then "." else "")
              +:+ s)).
Proof.
  intros Hf Hty Hthis Hname Hs.
  unfold tree.getNodeName in Hname. rewrite Hty in Hname.
  rewrite bind_Ok, (proj2 (strict_eq_false _ _) Hthis) in Hname.
  apply bind_inv in Hname as (id & Hid & Hname).
  unfold tree.getPartialItemName.
  unfold unwrap_call in Hf. apply bind_inv in Hf as (ty0 & -> & Hf).
  run. rewrite Hf. run. rewrite Hty. run. rewrite Hid. run.
  destruct (to_boolean id); [| congruence].
  run. rewrite Hname. by run.
Qed.

Lemma getPartialItemName_of_getNodeName_witness :
  tree.getPartialItemName prog_call (VRef 2) = Ok (VStr ".c").
Proof.
  apply (getPartialItemName_of_getNodeName prog_call (VRef 2) (VRef 4)
           (VStr "MemberExpression") "c");
    [reflexivity | reflexivity | discriminate | reflexivity | discriminate].
Defined.

(** ** [isParameter]: what it reads and where it fails *)

Lemma is_array_inv h v :
  is_array h v = true → ∃ l elems, v = VRef l ∧ h !! l = Some (OArr elems).
Proof.
  destruct v as [| | b | s | l]; simpl; try discriminate.
  destruct (h !! l) as [[fields | elems] |] eqn:Hl; try discriminate. eauto.
Qed.

(** [forEach] reads the array and nothing else. *)
Lemma forEach_frame {S} (h h' : heap) (arr : value) (cb : value → S → S) s :
  (∀ la, arr = VRef la → h' !! la = h !! la) →
  forEach h' arr cb s = forEach h arr cb s.
Proof.
  intros Hsame. destruct arr as [| | b | t | la]; try done.
  simpl. by rewrite (Hsame la eq_refl).
Qed.

(** X10. [isParameter] reads the container and its [arguments] or [elements]
    array, and nothing else: on two stores that hold the same container and
    the same array it gives the same answer.  In particular the object
    behind [node] is never looked at; only its identity counts. *)
Theorem isParameter_reads_container_only
    (h h' : heap) (l : nat) (fields : gmap string value) (node : value) :
  h !! l = Some (OObj fields) →
  h' !! l = Some (OObj fields) →
  (∀ la, fld fields "arguments" = VRef la → h' !! la = h !! la) →
  (∀ la, fld fields "elements" = VRef la → h' !! la = h !! la) →
  tree.isParameter h' node (VRef l) = tree.isParameter h node (VRef l).
Proof.
  intros Hl Hl' Hargs Helems. unfold tree.isParameter.
  reads Hl. reads Hl'. run.
  destruct (strict_eq _ (VStr "CallExpression")); [by apply forEach_frame |].
  repeat (destruct (strict_eq (fld fields "type") _); [done |]).
  destruct (strict_eq _ (VStr "ArrayExpression")); [by apply forEach_frame |].
  done.
Qed.

(** In [x(x)], replacing the object of the argument [x] by an empty object
    changes nothing. *)
Lemma isParameter_reads_container_only_witness :
  tree.isParameter (<[10 := OObj ∅]> prog_same) (VRef 10) (VRef 2)
  = tree.isParameter prog_same (VRef 10) (VRef 2).
Proof.
  apply (isParameter_reads_container_only
           prog_same (<[10 := OObj ∅]> prog_same) 2 _ (VRef 10) eq_refl).
  - reflexivity.
  - intros la H. vm_compute in H. injection H as <-. reflexivity.
  - intros la H. vm_compute in H. discriminate.
Defined.

(** X11. With nothing to match, nothing is a parameter: a call without
    arguments and an array literal without elements have no parameter at
    all, and a declarator without initialiser ([init] is [null] or absent)
    has no node as parameter. *)
Theorem isParameter_nothing_to_match
    (h : heap) (l : nat) (fields : gmap string value) :
  h !! l = Some (OObj fields) →
  (fld fields "type" = VStr "CallExpression" →
   ∀ la, fld fields "arguments" = VRef la → h !! la = Some (OArr []) →
     ∀ node, tree.isParameter h node (VRef l) = Ok false)
  ∧ (fld fields "type" = VStr "ArrayExpression" →
     ∀ la, fld fields "elements" = VRef la → h !! la = Some (OArr []) →
       ∀ node, tree.isParameter h node (VRef l) = Ok false)
  ∧ (fld fields "type" = VStr "VariableDeclarator" →
     is_nullish (fld fields "init") = true →
     ∀ ln, tree.isParameter h (VRef ln) (VRef l) = Ok false).
Proof.
  intros Hl. split_and!.
  - intros Hty la Ha Hla node. dispatch Hl Hty. rewrite Ha.
    by rewrite (forEach_array _ _ _ _ _ Hla).
  - intros Hty la Ha Hla node. dispatch Hl Hty. rewrite Ha.
    by rewrite (forEach_array _ _ _ _ _ Hla).
  - intros Hty Hinit ln. dispatch Hl Hty.
    by destruct (fld fields "init").
Qed.

(** The call [f()] has no parameter. *)
Lemma isParameter_nothing_to_match_witness :
  tree.isParameter prog_bare (VRef 4) (VRef 2) = Ok false.
Proof.
  exact (proj1 (isParameter_nothing_to_match prog_bare 2 _ eq_refl)
           eq_refl 3 eq_refl eq_refl (VRef 4)).
Defined.

(** X12. On a well-formed tree [isParameter] returns a boolean for every
    container node and every value of [node], [null] and [undefined]
    included. *)
Theorem isParameter_total (h : heap) (node expr : value) :
  estree h →
  is_node h expr = true →
  ∃ b, tree.isParameter h node expr = Ok b.
Proof.
  intros Hwf Hn. destruct (is_node_inv _ _ Hn) as (l & fields & -> & Hl).
  pose proof (estree_node_inv _ _ (estree_lookup _ Hwf _ _ Hl))
    as (_ & _ & _ & Hcall & _ & Harr).
  unfold tree.isParameter. reads Hl. run.
  destruct (strict_eq (fld fields "type") (VStr "CallExpression")) eqn:Ecall.
  { apply strict_eq_true in Ecall. destruct (Hcall Ecall) as [_ Ha].
    destruct (is_array_inv _ _ Ha) as (la & args & -> & Hla).
    rewrite (forEach_array _ _ _ _ _ Hla). eauto. }
  destruct (strict_eq (fld fields "type") (VStr "AssignmentExpression"));
    [eauto |].
  destruct (strict_eq (fld fields "type") (VStr "VariableDeclarator"));
    [eauto |].
  destruct (strict_eq (fld fields "type") (VStr "Property")); [eauto |].
  destruct (strict_eq (fld fields "type") (VStr "ArrayExpression")) eqn:Earr.
  { apply strict_eq_true in Earr.
    destruct (is_array_inv _ _ (Harr Earr)) as (la & elems & -> & Hla).
    rewrite (forEach_array _ _ _ _ _ Hla). eauto. }
  destruct (strict_eq (fld fields "type") (VStr "FunctionExpression"));
    [eauto |].
  destruct (strict_eq (fld fields "type") (VStr "ConditionalExpression")).
  { destruct (strict_eq node (fld fields "alternate")); eauto. }
  destruct (strict_eq (fld fields "type") (VStr "ArrowFunctionExpression"));
    eauto.
Qed.

Lemma estree_prog_same : estree prog_same.
Proof. apply (bool_decide_unpack (estree prog_same)). by vm_compute. Qed.

Lemma isParameter_total_witness :
  ∃ b, tree.isParameter prog_same VNull (VRef 2) = Ok b.
Proof.
  apply (isParameter_total prog_same VNull (VRef 2) estree_prog_same).
  reflexivity.
Defined.

(** X13. A call without an [arguments] array, or an array literal without an
    [elements] array, makes [isParameter] raise a [TypeError], whatever
    [node] is. *)
Theorem isParameter_missing_array
    (h : heap) (l : nat) (fields : gmap string value) (k : string)
    (node : value) :
  h !! l = Some (OObj fields) →
  (fld fields "type" = VStr "CallExpression" ∧ k = "arguments")
  ∨ (fld fields "type" = VStr "ArrayExpression" ∧ k = "elements") →
  is_array h (fld fields k) = false →
  (∀ la, fld fields k = VRef la → is_Some (h !! la)) →
  tree.isParameter h node (VRef l) = Err TypeError.
Proof.
  intros Hl Hkind Harr Hvalid.
  assert (∀ (cb : value → bool → bool),
            forEach h (fld fields k) cb false = Err TypeError) as Hthrow.
  { intros cb. destruct (fld fields k) as [| | b | t | la]; try done.
    simpl in *. destruct (Hvalid la eq_refl) as [[fs | es] Hla];
      rewrite Hla in *; [done | discriminate]. }
  destruct Hkind as [[Hty ->] | [Hty ->]]; dispatch Hl Hty; apply Hthrow.
Qed.

(** The call [f()] with its [arguments] field removed. *)
Lemma isParameter_missing_array_witness :
  tree.isParameter
    (<[2 := node "CallExpression" [("callee", VRef 4)]]> prog_bare)
    (VRef 4) (VRef 2)
  = Err TypeError.
Proof.
  apply (isParameter_missing_array
           (<[2 := node "CallExpression" [("callee", VRef 4)]]> prog_bare)
           2 (list_to_map [("type", VStr "CallExpression");
                           ("callee", VRef 4)])
           "arguments" (VRef 4)).
  - reflexivity.
  - left. split; reflexivity.
  - reflexivity.
  - intros la H. vm_compute in H. discriminate.
Defined.

(** ** More on [getParentFunctionIdentifier] *)

(** X14. Every node whose closest function is [f] gets the same answer, [f]
    itself included: the result depends on the function the walk stops at
    and on nothing below it. *)
Theorem getParentFunctionIdentifier_same_function
    (h : heap) (n1 n2 f : value) (d1 d2 fuel1 fuel2 : nat) :
  closest h n1 d1 f →
  closest h n2 d2 f →
  d1 < fuel1 →
  d2 < fuel2 →
  tree.getParentFunctionIdentifier fuel1 h n1
  = tree.getParentFunctionIdentifier fuel2 h n2.
Proof.
  intros H1 H2 Hf1 Hf2. unfold tree.getParentFunctionIdentifier.
  by rewrite (closest_function_found _ _ _ _ H1 _ Hf1),
             (closest_function_found _ _ _ _ H2 _ Hf2).
Qed.

(** In [function foo() { return x; }], the identifier [x] and the
    declaration itself. *)
Lemma getParentFunctionIdentifier_same_function_witness :
  tree.getParentFunctionIdentifier 4 prog_decl (VRef 5)
  = tree.getParentFunctionIdentifier 1 prog_decl (VRef 1).
Proof.
  apply (getParentFunctionIdentifier_same_function
           prog_decl (VRef 5) (VRef 1) (VRef 1) 3 0 4 1 prog_decl_closest).
  - by eapply (closest_here _ _ (VStr "FunctionDeclaration")).
  - lia.
  - lia.
Defined.

(** ** Absent and well-formed input *)

(** X15. None of the helpers accepts [null] or [undefined] where it expects a
    node: each raises a [TypeError] on its first read of [type] (for
    [getParentFunctionIdentifier], on the read of [id] after the loop).
    [isParameter] raises for an absent container only. *)
Theorem absent_node_throws (h : heap) (v : value) :
  is_nullish v = true →
  tree.getIdentifier h v = Err TypeError
  ∧ tree.getNodeName h v = Err TypeError
  ∧ (∀ fuel, tree.getFullItemName fuel h v = Err TypeError)
  ∧ tree.getPartialItemName h v = Err TypeError
  ∧ (∀ fuel, 0 < fuel →
       tree.getParentFunctionIdentifier fuel h v = Err TypeError)
  ∧ (∀ node, tree.isParameter h node v = Err TypeError).
Proof.
  intros Hv. destruct v; try discriminate; split_and!; try done;
    by intros [| fuel] Hfuel; [lia |].
Qed.

Lemma absent_node_throws_witness :
  tree.getIdentifier prog_call VNull = Err TypeError
  ∧ tree.isParameter prog_call (VRef 10) VNull = Err TypeError.
Proof.
  pose proof (absent_node_throws prog_call VNull eq_refl)
    as (Hid & _ & _ & _ & _ & Hpar).
  split; [exact Hid | exact (Hpar (VRef 10))].
Defined.

(** What [getIdentifier] returns on a well-formed tree. *)
Lemma getIdentifier_well_formed (h : heap) (node : value) :
  estree h →
  is_node h node = true →
  tree.getIdentifier h node = Ok VNull
  ∨ ∃ l fields s,
      tree.getIdentifier h node = Ok (VRef l)
      ∧ h !! l = Some (OObj fields)
      ∧ fields !! "type" = Some (VStr "Identifier")
      ∧ fld fields "name" = VStr s.
Proof.
  intros Hwf Hn.
  destruct (getIdentifier_total _ Hwf _ Hn) as (id & Hid).
  destruct (getIdentifier_result _ _ _ Hid) as [-> | Hty]; [by left |].
  destruct (get_type_str _ _ _ Hty) as (l & fields & -> & Hl & Hf).
  pose proof (estree_node_inv _ _ (estree_lookup _ Hwf _ _ Hl))
    as (_ & _ & Hname & _).
  destruct (is_str_inv (fld fields "name")) as (s & Hs).
  { apply Hname. unfold fld. by rewrite Hf. }
  right. by exists l, fields, s.
Qed.

(** X16. On a well-formed tree [getIdentifier] keeps to its declared result:
    for every node it returns [null] or a node of the tree whose [type] is
    ['Identifier'] and whose [name] is a string. *)
Theorem getIdentifier_returns_identifier (h : heap) (node : value) :
  estree h →
  is_node h node = true →
  tree.getIdentifier h node = Ok VNull
  ∨ ∃ l fields s,
      tree.getIdentifier h node = Ok (VRef l)
      ∧ h !! l = Some (OObj fields)
      ∧ fields !! "type" = Some (VStr "Identifier")
      ∧ fld fields "name" = VStr s.
Proof. exact (getIdentifier_well_formed h node). Qed.

Lemma getIdentifier_returns_identifier_witness :
  tree.getIdentifier prog_call (VRef 2) = Ok VNull
  ∨ ∃ l fields s,
      tree.getIdentifier prog_call (VRef 2) = Ok (VRef l)
      ∧ prog_call !! l = Some (OObj fields)
      ∧ fields !! "type" = Some (VStr "Identifier")
      ∧ fld fields "name" = VStr s.
Proof.
  apply (getIdentifier_returns_identifier prog_call (VRef 2)
           estree_prog_call).
  reflexivity.
Defined.

(** X17. On a well-formed tree [getPartialItemName] returns for every node,
    and what it returns is [undefined] or a string. *)
Theorem getPartialItemName_total (h : heap) (func : value) :
  estree h →
  is_node h func = true →
  tree.getPartialItemName h func = Ok VUndef
  ∨ ∃ s, tree.getPartialItemName h func = Ok (VStr s).
Proof.
  intros Hwf Hn.
  destruct (unwrap_call_node _ Hwf _ Hn) as (f & Hf & Hnf).
  destruct (is_node_get _ _ "type" Hnf) as (ty & Hty).
  unfold tree.getPartialItemName.
  unfold unwrap_call in Hf. apply bind_inv in Hf as (ty0 & -> & Hf).
  run. rewrite Hf. run. rewrite Hty. run.
  destruct (getIdentifier_well_formed _ _ Hwf Hnf)
    as [-> | (l & fields & s & -> & Hl & _ & Hs)]; [by left |].
  right. run. rewrite Hl. run. fold (fld fields "name"). rewrite Hs.
  unfold str_add. run. eauto.
Qed.

Lemma getPartialItemName_total_witness :
  tree.getPartialItemName prog_call (VRef 1) = Ok VUndef
  ∨ ∃ s, tree.getPartialItemName prog_call (VRef 1) = Ok (VStr s).
Proof.
  apply (getPartialItemName_total prog_call (VRef 1) estree_prog_call).
  reflexivity.
Defined.
